(** * Guard-Monitoring-System: the alert state machine of
      [guard_fatigue_detection.py]

    A shallow embedding of [DrowsinessDetector]: the per-frame update
    ([process_frame]), the audio alert controller ([_handle_audio_alert]),
    the guard presence monitor ([_handle_no_face]) and the event logger
    ([_maybe_log_event]), followed by the properties of the specification
    that are settled on it.

    Conventions of the embedding.
    - Python floats (scores, thresholds, clock readings) are rationals [Q];
      every constant of the source (0.25, 2.0, 60.0, ...) is exact there.
      Python's [min]/[max] are [Qmin]/[Qmax], which return their first
      argument unless the second one is strictly smaller/larger, as Python
      does.
    - [self] is the record [Detector]; the rest of the world the methods
      touch (clock, audio backend, screen, file system) is the record
      [World], passed explicitly from statement to statement.
    - What the outside gives back is an oracle [Env]: the value of the k-th
      clock reading, whether sounddevice is there, whether a path can be
      opened for appending.
    - The landmark extraction and the eye-aspect-ratio arithmetic (a square
      root of pixel distances) are inputs: a frame is [Some avg_ear] when a
      face was found and [None] otherwise. *)

From Stdlib Require Import QArith Qminmax Qround ZArith Lia Bool List String Ascii.
From stdpp Require Import gmap strings.
Import ListNotations.

Local Open Scope string_scope.

(** ** Comparisons of the source on floats *)

Definition Qgeb (x y : Q) : bool := Qle_bool y x.
Definition Qltb (x y : Q) : bool := negb (Qle_bool y x).

(** ** The detector object *)

Record Detector := {
  EAR_THRESH : Q;
  CLOSED_EYES_FRAME : Z;
  counter : Z;
  (* audio alert state *)
  alert_active : bool;
  last_beep_time : Q;
  beep_interval_seconds : Q;
  (* fatigue scoring *)
  fatigue_score : Q;
  fatigue_increase_per_frame : Q;
  fatigue_decay_per_frame : Q;
  fatigue_alert_threshold : Q;
  (* guard mode options *)
  guard_mode : bool;
  headless : bool;
  fullscreen : bool;
  log_path : option string;
  (* guard mode state *)
  last_face_time : Q;
  no_face_timeout_seconds : Q;
  guard_alert_active : bool;
  guard_escalated : bool;
  escalation_seconds : Q
}.

(** Assignments [self.x = v], one per attribute the methods assign. *)

Definition set_counter (v : Z) (d : Detector) : Detector :=
  {| EAR_THRESH := EAR_THRESH d; CLOSED_EYES_FRAME := CLOSED_EYES_FRAME d;
     counter := v;
     alert_active := alert_active d; last_beep_time := last_beep_time d;
     beep_interval_seconds := beep_interval_seconds d;
     fatigue_score := fatigue_score d;
     fatigue_increase_per_frame := fatigue_increase_per_frame d;
     fatigue_decay_per_frame := fatigue_decay_per_frame d;
     fatigue_alert_threshold := fatigue_alert_threshold d;
     guard_mode := guard_mode d; headless := headless d;
     fullscreen := fullscreen d; log_path := log_path d;
     last_face_time := last_face_time d;
     no_face_timeout_seconds := no_face_timeout_seconds d;
     guard_alert_active := guard_alert_active d;
     guard_escalated := guard_escalated d;
     escalation_seconds := escalation_seconds d |}.

Definition set_alert_active (v : bool) (d : Detector) : Detector :=
  {| EAR_THRESH := EAR_THRESH d; CLOSED_EYES_FRAME := CLOSED_EYES_FRAME d;
     counter := counter d;
     alert_active := v; last_beep_time := last_beep_time d;
     beep_interval_seconds := beep_interval_seconds d;
     fatigue_score := fatigue_score d;
     fatigue_increase_per_frame := fatigue_increase_per_frame d;
     fatigue_decay_per_frame := fatigue_decay_per_frame d;
     fatigue_alert_threshold := fatigue_alert_threshold d;
     guard_mode := guard_mode d; headless := headless d;
     fullscreen := fullscreen d; log_path := log_path d;
     last_face_time := last_face_time d;
     no_face_timeout_seconds := no_face_timeout_seconds d;
     guard_alert_active := guard_alert_active d;
     guard_escalated := guard_escalated d;
     escalation_seconds := escalation_seconds d |}.

Definition set_last_beep_time (v : Q) (d : Detector) : Detector :=
  {| EAR_THRESH := EAR_THRESH d; CLOSED_EYES_FRAME := CLOSED_EYES_FRAME d;
     counter := counter d;
     alert_active := alert_active d; last_beep_time := v;
     beep_interval_seconds := beep_interval_seconds d;
     fatigue_score := fatigue_score d;
     fatigue_increase_per_frame := fatigue_increase_per_frame d;
     fatigue_decay_per_frame := fatigue_decay_per_frame d;
     fatigue_alert_threshold := fatigue_alert_threshold d;
     guard_mode := guard_mode d; headless := headless d;
     fullscreen := fullscreen d; log_path := log_path d;
     last_face_time := last_face_time d;
     no_face_timeout_seconds := no_face_timeout_seconds d;
     guard_alert_active := guard_alert_active d;
     guard_escalated := guard_escalated d;
     escalation_seconds := escalation_seconds d |}.

Definition set_fatigue_score (v : Q) (d : Detector) : Detector :=
  {| EAR_THRESH := EAR_THRESH d; CLOSED_EYES_FRAME := CLOSED_EYES_FRAME d;
     counter := counter d;
     alert_active := alert_active d; last_beep_time := last_beep_time d;
     beep_interval_seconds := beep_interval_seconds d;
     fatigue_score := v;
     fatigue_increase_per_frame := fatigue_increase_per_frame d;
     fatigue_decay_per_frame := fatigue_decay_per_frame d;
     fatigue_alert_threshold := fatigue_alert_threshold d;
     guard_mode := guard_mode d; headless := headless d;
     fullscreen := fullscreen d; log_path := log_path d;
     last_face_time := last_face_time d;
     no_face_timeout_seconds := no_face_timeout_seconds d;
     guard_alert_active := guard_alert_active d;
     guard_escalated := guard_escalated d;
     escalation_seconds := escalation_seconds d |}.

Definition set_last_face_time (v : Q) (d : Detector) : Detector :=
  {| EAR_THRESH := EAR_THRESH d; CLOSED_EYES_FRAME := CLOSED_EYES_FRAME d;
     counter := counter d;
     alert_active := alert_active d; last_beep_time := last_beep_time d;
     beep_interval_seconds := beep_interval_seconds d;
     fatigue_score := fatigue_score d;
     fatigue_increase_per_frame := fatigue_increase_per_frame d;
     fatigue_decay_per_frame := fatigue_decay_per_frame d;
     fatigue_alert_threshold := fatigue_alert_threshold d;
     guard_mode := guard_mode d; headless := headless d;
     fullscreen := fullscreen d; log_path := log_path d;
     last_face_time := v;
     no_face_timeout_seconds := no_face_timeout_seconds d;
     guard_alert_active := guard_alert_active d;
     guard_escalated := guard_escalated d;
     escalation_seconds := escalation_seconds d |}.

Definition set_guard_alert_active (v : bool) (d : Detector) : Detector :=
  {| EAR_THRESH := EAR_THRESH d; CLOSED_EYES_FRAME := CLOSED_EYES_FRAME d;
     counter := counter d;
     alert_active := alert_active d; last_beep_time := last_beep_time d;
     beep_interval_seconds := beep_interval_seconds d;
     fatigue_score := fatigue_score d;
     fatigue_increase_per_frame := fatigue_increase_per_frame d;
     fatigue_decay_per_frame := fatigue_decay_per_frame d;
     fatigue_alert_threshold := fatigue_alert_threshold d;
     guard_mode := guard_mode d; headless := headless d;
     fullscreen := fullscreen d; log_path := log_path d;
     last_face_time := last_face_time d;
     no_face_timeout_seconds := no_face_timeout_seconds d;
     guard_alert_active := v;
     guard_escalated := guard_escalated d;
     escalation_seconds := escalation_seconds d |}.

Definition set_guard_escalated (v : bool) (d : Detector) : Detector :=
  {| EAR_THRESH := EAR_THRESH d; CLOSED_EYES_FRAME := CLOSED_EYES_FRAME d;
     counter := counter d;
     alert_active := alert_active d; last_beep_time := last_beep_time d;
     beep_interval_seconds := beep_interval_seconds d;
     fatigue_score := fatigue_score d;
     fatigue_increase_per_frame := fatigue_increase_per_frame d;
     fatigue_decay_per_frame := fatigue_decay_per_frame d;
     fatigue_alert_threshold := fatigue_alert_threshold d;
     guard_mode := guard_mode d; headless := headless d;
     fullscreen := fullscreen d; log_path := log_path d;
     last_face_time := last_face_time d;
     no_face_timeout_seconds := no_face_timeout_seconds d;
     guard_alert_active := guard_alert_active d;
     guard_escalated := v;
     escalation_seconds := escalation_seconds d |}.

(** [detector.CLOSED_EYES_FRAME = v], assigned by a caller before the run. *)
Definition set_CLOSED_EYES_FRAME (v : Z) (d : Detector) : Detector :=
  {| EAR_THRESH := EAR_THRESH d; CLOSED_EYES_FRAME := v;
     counter := counter d;
     alert_active := alert_active d; last_beep_time := last_beep_time d;
     beep_interval_seconds := beep_interval_seconds d;
     fatigue_score := fatigue_score d;
     fatigue_increase_per_frame := fatigue_increase_per_frame d;
     fatigue_decay_per_frame := fatigue_decay_per_frame d;
     fatigue_alert_threshold := fatigue_alert_threshold d;
     guard_mode := guard_mode d; headless := headless d;
     fullscreen := fullscreen d; log_path := log_path d;
     last_face_time := last_face_time d;
     no_face_timeout_seconds := no_face_timeout_seconds d;
     guard_alert_active := guard_alert_active d;
     guard_escalated := guard_escalated d;
     escalation_seconds := escalation_seconds d |}.

(** ** The world around the detector *)

(** A waveform of [_build_beep_waveform], kept as its three parameters. *)
Record Tone := { frequency_hz : Q; duration_seconds : Q; volume : Q }.

(** What reaches the audio backend. *)
Inductive Sound :=
| SdPlay (tone : Tone)
| SdStop
| Afplay (path : string).

(** The methods with an outside effect, in the order they are entered. *)
Inductive Call :=
| CallPlayBeep
| CallPlayEscalationBeep
| CallStopAudio
| CallLogEvent (event : string).

(** A label drawn by [put_text_with_background]; [alert_style] is the red
    background chosen when the text contains ALERT. *)
Record Label := { label_text : string; alert_style : bool }.

Record Env := {
  time_time : nat -> Q;          (* value of the k-th clock reading *)
  time_strftime : nat -> string; (* the same reading, formatted *)
  format_fixed : nat -> Q -> string; (* f-string [{x:.nf}] *)
  writable : string -> bool;     (* open(path, 'a') does not raise *)
  sd : bool;                     (* sounddevice was imported *)
  sd_raises : bool;              (* its calls raise *)
  darwin : bool                  (* sys.platform == 'darwin' *)
}.

Record World := {
  self : Detector;
  ticks : nat;                   (* clock readings taken so far *)
  calls : list Call;
  sound : list Sound;
  screen : list Label;
  disk : gmap string string      (* path to text of the file *)
}.

Definition upd (f : Detector -> Detector) (w : World) : World :=
  {| self := f (self w); ticks := ticks w; calls := calls w;
     sound := sound w; screen := screen w; disk := disk w |}.

Definition tick (w : World) : World :=
  {| self := self w; ticks := S (ticks w); calls := calls w;
     sound := sound w; screen := screen w; disk := disk w |}.

Definition add_call (c : Call) (w : World) : World :=
  {| self := self w; ticks := ticks w; calls := calls w ++ [c];
     sound := sound w; screen := screen w; disk := disk w |}.

Definition add_sound (s : Sound) (w : World) : World :=
  {| self := self w; ticks := ticks w; calls := calls w;
     sound := sound w ++ [s]; screen := screen w; disk := disk w |}.

Definition add_label (l : Label) (w : World) : World :=
  {| self := self w; ticks := ticks w; calls := calls w;
     sound := sound w; screen := screen w ++ [l]; disk := disk w |}.

Definition set_disk (d : gmap string string) (w : World) : World :=
  {| self := self w; ticks := ticks w; calls := calls w;
     sound := sound w; screen := screen w; disk := d |}.

(** [time.time()] returns [reading env w] and moves the world to [tick w]. *)
Definition reading (env : Env) (w : World) : Q := time_time env (ticks w).

(** ** Rendering *)

Fixpoint contains (needle hay : string) : bool :=
  String.prefix needle hay ||
  match hay with
  | EmptyString => false
  | String _ rest => contains needle rest
  end.

Definition put_text_with_background (text : string) (w : World) : World :=
  add_label {| label_text := text; alert_style := contains "ALERT" text |} w.

(** ** Audio backend *)

Definition _build_beep_waveform (f d v : Q) : Tone :=
  {| frequency_hz := f; duration_seconds := d; volume := v |}.

Definition _prebuilt_beep : Tone :=
  _build_beep_waveform 880%Q (1 # 4)%Q (1 # 5)%Q.

Definition _play_beep (env : Env) (w : World) : World :=
  let w := add_call CallPlayBeep w in
  if sd env && negb (sd_raises env) then add_sound (SdPlay _prebuilt_beep) w
  else if darwin env then add_sound (Afplay "/System/Library/Sounds/Ping.aiff") w
  else w.

Definition _play_escalation_beep (env : Env) (w : World) : World :=
  let w := add_call CallPlayEscalationBeep w in
  if sd env && negb (sd_raises env) then
    add_sound (SdPlay (_build_beep_waveform 1320%Q (1 # 2)%Q (3 # 10)%Q)) w
  else if darwin env then add_sound (Afplay "/System/Library/Sounds/Sosumi.aiff") w
  else w.

Definition _stop_audio (env : Env) (w : World) : World :=
  let w := add_call CallStopAudio w in
  if sd env && negb (sd_raises env) then add_sound SdStop w else w.

(** ** Audio alert controller *)

Definition _handle_audio_alert (env : Env) (active : bool) (w : World) : World :=
  (* rising edge: became active now *)
  let w := if active && negb (alert_active (self w))
           then upd (set_last_beep_time 0%Q) (upd (set_alert_active true) w)
           else w in
  (* falling edge: stopped being active *)
  if negb active && alert_active (self w) then
    _stop_audio env (upd (set_alert_active false) w)
  else
    (* while active, emit beep periodically *)
    if alert_active (self w) then
      let t := reading env w in
      let w := tick w in
      if Qgeb (t - last_beep_time (self w))%Q (beep_interval_seconds (self w))
      then upd (set_last_beep_time t) (_play_beep env w)
      else w
    else w.

(** ** Event logger *)

Definition CR : ascii := ascii_of_nat 13.
Definition LF : ascii := ascii_of_nat 10.
Definition DQUOTE : ascii := ascii_of_nat 34.
Definition COMMA : ascii := ascii_of_nat 44.

Definition lineterminator : string := String CR (String LF EmptyString).

(** Characters that make [csv.writer] quote a field (QUOTE_MINIMAL). *)
Definition special (c : ascii) : bool :=
  Ascii.eqb c COMMA || Ascii.eqb c DQUOTE || Ascii.eqb c CR || Ascii.eqb c LF.

Fixpoint needs_quotes (s : string) : bool :=
  match s with
  | EmptyString => false
  | String c rest => special c || needs_quotes rest
  end.

Fixpoint double_quotes (s : string) : string :=
  match s with
  | EmptyString => EmptyString
  | String c rest =>
      if Ascii.eqb c DQUOTE then String c (String c (double_quotes rest))
      else String c (double_quotes rest)
  end.

Definition csv_field (s : string) : string :=
  if needs_quotes s
  then String DQUOTE (double_quotes s ++ String DQUOTE EmptyString)
  else s.

Fixpoint join_fields (fields : list string) : string :=
  match fields with
  | [] => EmptyString
  | [f] => csv_field f
  | f :: rest => csv_field f ++ String COMMA (join_fields rest)
  end.

(** [writer.writerow(row)]: the text appended to the file. *)
Definition writerow (row : list string) : string :=
  match row with
  | [EmptyString] => String DQUOTE (String DQUOTE lineterminator)
  | _ => join_fields row ++ lineterminator
  end.

Definition _maybe_log_event (env : Env) (event : string) (w : World) : World :=
  let w := add_call (CallLogEvent event) w in
  match log_path (self w) with
  | None => w
  | Some EmptyString => w
  | Some path =>
      let row := [time_strftime env (ticks w); event] in
      let w := tick w in
      if writable env path then
        let file_exists := bool_decide (is_Some (disk w !! path)) in
        let f := default EmptyString (disk w !! path) in
        let f := if file_exists then f else f ++ writerow ["timestamp"; "event"] in
        let f := f ++ writerow row in
        set_disk (<[path := f]> (disk w)) w
      else w
  end.

(** ** Guard presence monitor *)

Definition _handle_no_face (env : Env) (w : World) : World :=
  if negb (guard_mode (self w)) then w
  else
    let seconds_since_face := (reading env w - last_face_time (self w))%Q in
    let w := tick w in
    if Qgeb seconds_since_face (no_face_timeout_seconds (self w)) then
      let w := put_text_with_background "No Face ALERT!" w in
      let w := _handle_audio_alert env true w in
      let w := _maybe_log_event env "NO_FACE_ALERT" w in
      (* escalate after prolonged alert *)
      if Qgeb seconds_since_face
              (no_face_timeout_seconds (self w) + escalation_seconds (self w))%Q
      then
        let w := if negb (guard_escalated (self w))
                 then _maybe_log_event env "ALERT_ESCALATED"
                        (upd (set_guard_escalated true) w)
                 else w in
        (* replace periodic beep with escalation beep occasionally *)
        let t := reading env w in
        let w := tick w in
        if Qgeb (t - last_beep_time (self w))%Q
                (Qmax (1 # 2) (beep_interval_seconds (self w) / 2))%Q
        then
          let w := _play_escalation_beep env w in
          upd (set_last_beep_time (reading env w)) (tick w)
        else w
      else w
    else
      let w := if alert_active (self w) || guard_alert_active (self w)
               then _maybe_log_event env "ALERT_CLEARED" w
               else w in
      let w := upd (set_guard_escalated false) w in
      let w := upd (set_guard_alert_active false) w in
      _handle_audio_alert env false w.

(** ** Frame orchestrator *)

(** The condition of the alert branch, read after the counter and the
    score were updated. *)
Definition fatigue_alert_condition (d : Detector) : bool :=
  (counter d >=? CLOSED_EYES_FRAME d)%Z
  || Qgeb (fatigue_score d) (fatigue_alert_threshold d).


(** [frame] is what the landmark extractor found on the flipped image:
    [None] for no face, [Some avg_ear] for the averaged eye aspect ratio of
    the one face. *)
Definition process_frame (env : Env) (frame : option Q) (w : World) : World :=
  match frame with
  | Some avg_ear =>
      (* when a face is present, update face timestamp *)
      let t := reading env w in
      let w := upd (set_last_face_time t) (tick w) in
      let w :=
        if Qltb avg_ear (EAR_THRESH (self w)) then
          let w := upd (set_counter (counter (self w) + 1)%Z) w in
          (* accumulate fatigue while likely drowsy *)
          let w := upd (set_fatigue_score
                          (Qmin 100 (fatigue_score (self w)
                                     + fatigue_increase_per_frame (self w)))%Q) w in
          if fatigue_alert_condition (self w) then
            let w := put_text_with_background "Fatigue ALERT!" w in
            let w := _handle_audio_alert env true w in
            _maybe_log_event env "FATIGUE_ALERT" w
          else w
        else
          let w := upd (set_counter 0%Z) w in
          (* decay fatigue when attentive *)
          let w := upd (set_fatigue_score
                          (Qmax 0 (fatigue_score (self w)
                                   - fatigue_decay_per_frame (self w)))%Q) w in
          _handle_audio_alert env false w in
      let w := put_text_with_background
                 ("EAR (Eye Aspect Ratio): " ++ format_fixed env 2 avg_ear) w in
      put_text_with_background
        ("Fatigue score: " ++ format_fixed env 0 (fatigue_score (self w))) w
  | None =>
      (* no face detected: handle guard mode *)
      _handle_no_face env w
  end.

(** ** Construction and the capture loop *)

(** [DrowsinessDetector(guard_mode, headless, fullscreen, log_path)] in a
    world whose file system is [fs]; the constructor takes the first clock
    reading for [last_face_time]. *)
Definition __init__ (env : Env) (guard headless_ fullscreen_ : bool)
    (path : option string) (fs : gmap string string) : World :=
  {| self := {| EAR_THRESH := (1 # 4)%Q; CLOSED_EYES_FRAME := 20%Z;
                counter := 0%Z;
                alert_active := false; last_beep_time := 0%Q;
                beep_interval_seconds := 1%Q;
                fatigue_score := 0%Q;
                fatigue_increase_per_frame := 2%Q;
                fatigue_decay_per_frame := 1%Q;
                fatigue_alert_threshold := 60%Q;
                guard_mode := guard; headless := headless_;
                fullscreen := fullscreen_; log_path := path;
                last_face_time := time_time env 0;
                no_face_timeout_seconds := 10%Q;
                guard_alert_active := false;
                guard_escalated := false;
                escalation_seconds := 60%Q |};
     ticks := 1; calls := []; sound := []; screen := []; disk := fs |}.

(** The body of the [while True] loop of [start_detection], once per frame
    the camera delivers before the run ends. *)
Fixpoint process_frames (env : Env) (frames : list (option Q)) (w : World) : World :=
  match frames with
  | [] => w
  | frame :: rest => process_frames env rest (process_frame env frame w)
  end.

(** [start_detection]: a camera that cannot be opened raises ([None]). *)
Definition start_detection (env : Env) (camera : option (list (option Q)))
    (w : World) : option World :=
  match camera with
  | None => None
  | Some frames => Some (process_frames env frames w)
  end.

(** ** Reading the trace *)

Definition is_event (event : string) (c : Call) : bool :=
  match c with
  | CallLogEvent e => String.eqb e event
  | _ => false
  end.

(** How many times [_maybe_log_event(event)] was entered. *)
Definition count_event (event : string) (cs : list Call) : nat :=
  length (List.filter (is_event event) cs).

Definition is_audio (c : Call) : bool :=
  match c with
  | CallLogEvent _ => false
  | _ => true
  end.

(** The calls of the audio methods, in order. *)
Definition audio_calls (cs : list Call) : list Call :=
  List.filter is_audio cs.

(** Clock readings one call of [_maybe_log_event] takes. *)
Definition log_reads (d : Detector) : nat :=
  match log_path d with
  | None => 0
  | Some EmptyString => 0
  | Some _ => 1
  end.

(** The throttle value the cadence check of a frame with [active=True]
    compares against: 0 after a rising edge, the last beep otherwise. *)
Definition throttle (d : Detector) : Q :=
  if alert_active d then last_beep_time d else 0%Q.

(** Whether [_handle_audio_alert(True)] beeps in world [w]. *)
Definition beep_due (env : Env) (w : World) : bool :=
  Qgeb (reading env w - throttle (self w))%Q (beep_interval_seconds (self w)).

(** A rising edge on one frame and the falling edge on the next one. *)
Definition rising_then_falling (env : Env) (w : World) : World :=
  _handle_audio_alert env false (_handle_audio_alert env true w).

(** ** Concrete runs *)

(** A machine with sounddevice, a writable disk and a clock that stands at
    an epoch time [t] for every reading. *)
Definition env_at (t : Q) : Env :=
  {| time_time := fun _ => t;
     time_strftime := fun _ => "2025-11-03 09:03:00";
     format_fixed := fun _ _ => "0";
     writable := fun _ => true;
     sd := true; sd_raises := false; darwin := false |}.

Definition env_epoch : Env := env_at 1700000000.

(** A detector that has just been built, fatigue mode, no log. *)
Definition w_idle : World := __init__ env_epoch false false false None ∅.

(** The attributes no method assigns. *)
Definition config (d : Detector) :=
  (EAR_THRESH d, CLOSED_EYES_FRAME d, beep_interval_seconds d,
   fatigue_increase_per_frame d, fatigue_decay_per_frame d,
   fatigue_alert_threshold d, guard_mode d, headless d, fullscreen d,
   log_path d, no_face_timeout_seconds d, escalation_seconds d).

(** The detector after the scorer's update of a face frame read at [t]:
    eyes closed ([avg_ear < EAR_THRESH]) and eyes open. *)
Definition scorer_closed (t : Q) (d : Detector) : Detector :=
  set_fatigue_score (Qmin 100 (fatigue_score d + fatigue_increase_per_frame d))%Q
    (set_counter (counter d + 1)%Z (set_last_face_time t d)).

Definition scorer_open (t : Q) (d : Detector) : Detector :=
  set_fatigue_score (Qmax 0 (fatigue_score d - fatigue_decay_per_frame d))%Q
    (set_counter 0%Z (set_last_face_time t d)).

(** Seconds since a face was last seen, as [_handle_no_face] computes them
    from the next clock reading. *)
Definition seconds_since_face (env : Env) (w : World) : Q :=
  (reading env w - last_face_time (self w))%Q.

(** The minimum spacing of the escalation tone. *)
Definition escalation_cadence (d : Detector) : Q :=
  Qmax (1 # 2) (beep_interval_seconds d / 2)%Q.

(** On a no-face frame past the escalation window: the throttle left by the
    controller, the clock reading of the escalation check, and whether the
    escalation tone is played. *)
Definition throttle_after_beep (env : Env) (w : World) : Q :=
  if beep_due env (tick w) then time_time env (S (ticks w))
  else throttle (self w).

Definition escalation_reading (env : Env) (w : World) : Q :=
  time_time env
    (ticks w + 2
     + log_reads (self w) * (if guard_escalated (self w) then 1 else 2))%nat.

Definition escalation_due (env : Env) (w : World) : bool :=
  Qgeb (escalation_reading env w - throttle_after_beep env w)%Q
       (escalation_cadence (self w)).

(** The overlay of the no-face alert. *)
Definition no_face_label : Label :=
  {| label_text := "No Face ALERT!"; alert_style := true |}.

Definition is_play (c : Call) : bool :=
  match c with
  | CallPlayBeep | CallPlayEscalationBeep => true
  | _ => false
  end.

(** How many times a tone was requested. *)
Definition count_play (cs : list Call) : nat :=
  length (List.filter is_play cs).

(** The clock never runs backwards. *)
Definition monotone_clock (env : Env) : Prop :=
  forall i j : nat, (i <= j)%nat -> (time_time env i <= time_time env j)%Q.

(** A clock that reads 1000 first (the constructor's reading) and 1070 ever
    after, on a machine with sounddevice and a writable disk. *)
Definition env_jump : Env :=
  {| time_time := fun k => match k with O => 1000%Q | S _ => 1070%Q end;
     time_strftime := fun _ => "2025-11-03 09:04:10";
     format_fixed := fun _ _ => "0";
     writable := fun _ => true;
     sd := true; sd_raises := false; darwin := false |}.

(** A guard-mode detector built at 1000 s, logging to guard.csv. *)
Definition w_guard : World :=
  __init__ env_jump true true false (Some "guard.csv") ∅.

(** Once escalated, the absence is still past the escalation window at the
    next clock reading. *)
Definition escalation_holds (env : Env) (w : World) : Prop :=
  guard_escalated (self w) = true ->
  (no_face_timeout_seconds (self w) + escalation_seconds (self w)
   <= seconds_since_face env w)%Q.

(** The detector built at 1000 s after one no-face frame at 1070 s: the
    guard alert is on and escalated. *)
Definition w_alerting : World := process_frames env_jump [None] w_guard.

(** How many times an alert was reported (NO_FACE_ALERT or FATIGUE_ALERT);
    both are emitted on every frame of their alert branch. *)
Definition count_raised (cs : list Call) : nat :=
  (count_event "NO_FACE_ALERT" cs + count_event "FATIGUE_ALERT" cs)%nat.

(** A clock for three no-face frames without a log (three readings each):
    1000 s at construction, then 1070 s, 1071.5 s and 1072.1 s. *)
Definition env_frames : Env :=
  {| time_time := fun k =>
       if (k =? 0)%nat then 1000%Q
       else if (k <=? 3)%nat then 1070%Q
       else if (k <=? 6)%nat then (2143 # 2)%Q
       else (10721 # 10)%Q;
     time_strftime := fun _ => "2025-11-03 09:04:10";
     format_fixed := fun _ _ => "0";
     writable := fun _ => true;
     sd := true; sd_raises := false; darwin := false |}.

(** A guard-mode detector built at 1000 s, and the same after the no-face
    frame of 1070 s (escalated) and after the one of 1071.5 s. *)
Definition w_watch : World := __init__ env_frames true true false None ∅.
Definition w_escalated : World := process_frames env_frames [None] w_watch.
Definition w_escalated2 : World := process_frames env_frames [None; None] w_watch.

(** [events] passed to the logger one after the other. *)
Definition log_events (env : Env) (events : list string) (w : World) : World :=
  fold_left (fun w event => _maybe_log_event env event w) events w.

(** The data rows of [events] logged from clock reading [k] on: one
    timestamp per event, in order. *)
Fixpoint data_rows (env : Env) (k : nat) (events : list string) : list (list string) :=
  match events with
  | [] => []
  | event :: rest => [time_strftime env k; event] :: data_rows env (S k) rest
  end.

(** The text [csv.writer] produces for a list of rows. *)
Fixpoint writerows (rows : list (list string)) : string :=
  match rows with
  | [] => EmptyString
  | row :: rest => writerow row ++ writerows rest
  end.

(** ** Reading a log back

    What rows a CSV text holds is said with the state machine of
    [csv.reader] (excel dialect, not strict) run over the characters of the
    text: a comma ends a field and a CR, CR LF or LF ends a record, except
    inside quotes, where a doubled quote stands for one. *)

Inductive ParserState :=
| START_RECORD
| START_FIELD
| IN_FIELD
| IN_QUOTED_FIELD
| QUOTE_IN_QUOTED_FIELD
| EAT_CRNL.

Record Reader := {
  state : ParserState;
  records : list (list string);   (* the rows read so far *)
  fields : list string;           (* the fields of the current row *)
  field : string                  (* the characters of the current field *)
}.

Definition goto (st : ParserState) (r : Reader) : Reader :=
  {| state := st; records := records r; fields := fields r; field := field r |}.

Definition add_char (c : ascii) (r : Reader) : Reader :=
  {| state := state r; records := records r; fields := fields r;
     field := field r ++ String c EmptyString |}.

Definition save_field (st : ParserState) (r : Reader) : Reader :=
  {| state := st; records := records r; fields := (fields r ++ [field r])%list;
     field := EmptyString |}.

Definition save_record (st : ParserState) (r : Reader) : Reader :=
  {| state := st; records := (records r ++ [fields r ++ [field r]])%list;
     fields := []; field := EmptyString |}.

Definition blank_record (st : ParserState) (r : Reader) : Reader :=
  {| state := st; records := (records r ++ [[]])%list;
     fields := []; field := EmptyString |}.

Definition start_field (c : ascii) (r : Reader) : Reader :=
  if Ascii.eqb c CR then save_record EAT_CRNL r
  else if Ascii.eqb c LF then save_record START_RECORD r
  else if Ascii.eqb c DQUOTE then goto IN_QUOTED_FIELD r
  else if Ascii.eqb c COMMA then save_field START_FIELD r
  else add_char c (goto IN_FIELD r).

Definition start_record (c : ascii) (r : Reader) : Reader :=
  if Ascii.eqb c CR then blank_record EAT_CRNL r
  else if Ascii.eqb c LF then blank_record START_RECORD r
  else start_field c r.

Definition parse_char (r : Reader) (c : ascii) : Reader :=
  match state r with
  | START_RECORD => start_record c r
  | EAT_CRNL =>
      if Ascii.eqb c LF then goto START_RECORD r else start_record c r
  | START_FIELD => start_field c r
  | IN_FIELD =>
      if Ascii.eqb c CR then save_record EAT_CRNL r
      else if Ascii.eqb c LF then save_record START_RECORD r
      else if Ascii.eqb c COMMA then save_field START_FIELD r
      else add_char c r
  | IN_QUOTED_FIELD =>
      if Ascii.eqb c DQUOTE then goto QUOTE_IN_QUOTED_FIELD r
      else add_char c r
  | QUOTE_IN_QUOTED_FIELD =>
      if Ascii.eqb c DQUOTE then add_char c (goto IN_QUOTED_FIELD r)
      else if Ascii.eqb c COMMA then save_field START_FIELD r
      else if Ascii.eqb c CR then save_record EAT_CRNL r
      else if Ascii.eqb c LF then save_record START_RECORD r
      else add_char c (goto IN_FIELD r)
  end.

Fixpoint parse (text : string) (r : Reader) : Reader :=
  match text with
  | EmptyString => r
  | String c rest => parse rest (parse_char r c)
  end.

Definition reader_start (rows : list (list string)) : Reader :=
  {| state := START_RECORD; records := rows; fields := []; field := EmptyString |}.

(** The rows of a text; a last row without line end is kept. *)
Definition csv_reader (text : string) : list (list string) :=
  let r := parse text (reader_start []) in
  match state r with
  | START_RECORD | EAT_CRNL => records r
  | _ => (records r ++ [fields r ++ [field r]])%list
  end.

(** The header row of the log. *)
Definition header : list string := ["timestamp"; "event"].

(** A detector that has just been built with a log path, on a disk that
    does not hold the file. *)
Definition w_logging : World :=
  __init__ env_epoch false false false (Some "events.csv") ∅.

(** The new detector with the debounce raised to 40 frames. *)
Definition w_debounce40 : World := upd (set_CLOSED_EYES_FRAME 40) w_idle.

(** ** Counting calls *)

Definition count_calls (p : Call -> bool) (cs : list Call) : nat :=
  length (List.filter p cs).

Definition is_stop (c : Call) : bool :=
  match c with
  | CallStopAudio => true
  | _ => false
  end.

Definition is_escalation_tone (c : Call) : bool :=
  match c with
  | CallPlayEscalationBeep => true
  | _ => false
  end.

(** ** Reading a run of frames *)

(** Face frames with closed eyes ([avg_ear] below [threshold]) in a run. *)
Fixpoint count_closed (threshold : Q) (frames : list (option Q)) : nat :=
  match frames with
  | [] => 0
  | Some avg_ear :: rest =>
      (if Qltb avg_ear threshold then 1 else 0) + count_closed threshold rest
  | None :: rest => count_closed threshold rest
  end.

(** No face frame of the run has open eyes. *)
Definition no_open_eyes (threshold : Q) (frames : list (option Q)) : Prop :=
  Forall (fun frame => match frame with
                       | Some avg_ear => Qltb avg_ear threshold = true
                       | None => True
                       end) frames.

(** [last_face_time] is one of the clock readings taken so far. *)
Definition face_time_read (env : Env) (w : World) : Prop :=
  exists k : nat, (k < ticks w)%nat /\ last_face_time (self w) = time_time env k.

(** ** What the backend gets for a call *)

(** The backend action of one method call: sounddevice when it is imported
    and does not raise, else afplay on macOS for the two tones, else
    nothing. *)
Definition backend (env : Env) (c : Call) : list Sound :=
  let usable := sd env && negb (sd_raises env) in
  match c with
  | CallPlayBeep =>
      if usable then [SdPlay _prebuilt_beep]
      else if darwin env then [Afplay "/System/Library/Sounds/Ping.aiff"]
      else []
  | CallPlayEscalationBeep =>
      if usable then [SdPlay (_build_beep_waveform 1320%Q (1 # 2)%Q (3 # 10)%Q)]
      else if darwin env then [Afplay "/System/Library/Sounds/Sosumi.aiff"]
      else []
  | CallStopAudio => if usable then [SdStop] else []
  | CallLogEvent _ => []
  end.

(** The sound trace is the call trace, call by call. *)
Definition sound_follows (env : Env) (w : World) : Prop :=
  sound w = flat_map (backend env) (calls w).

(** A machine without sounddevice that is not a Mac and cannot write the
    log; its clock reads 1000 s first and 1070 s ever after. *)
Definition env_silent : Env :=
  {| time_time := fun k => match k with O => 1000%Q | S _ => 1070%Q end;
     time_strftime := fun _ => "2025-11-03 09:04:10";
     format_fixed := fun _ _ => "0";
     writable := fun _ => false;
     sd := false; sd_raises := false; darwin := false |}.

(** ** What a run does to the disk *)

(** The log path is [lp] and the disk satisfies [R]. *)
Definition disk_keeps (lp : option string) (R : gmap string string -> Prop)
    (w : World) : Prop :=
  log_path (self w) = lp /\ R (disk w).

(** Logging is off: no path, an empty path, or a path that cannot be opened
    for appending. *)
Definition log_off (env : Env) (lp : option string) : Prop :=
  match lp with
  | None => True
  | Some path => path = EmptyString \/ writable env path = false
  end.

(** ** The part of the world the alert logic reads *)

(** Two worlds with the same detector, the same number of clock readings
    taken and the same method calls; their sound, screen and disk may
    differ. *)
Definition agree (w w' : World) : Prop :=
  self w = self w' /\ ticks w = ticks w' /\ calls w = calls w'.

(** ** The events of a trace *)

(** The events passed to the logger, in order. *)
Definition logged (cs : list Call) : list string :=
  flat_map (fun c => match c with
                     | CallLogEvent event => [event]
                     | _ => []
                     end) cs.

(** The log file at [path] holds the header and one two-field row per event
    logged so far, in order; it does not exist while nothing was logged. *)
Definition log_holds (path : string) (w : World) : Prop :=
  log_path (self w) = Some path
  /\ exists rows : list (list string),
       map (fun row => nth 1 row EmptyString) rows = logged (calls w)
       /\ Forall (fun row => length row = 2%nat) rows
       /\ disk w !! path
          = match rows with
            | [] => None
            | _ => Some (writerows (header :: rows))
            end.

(** ** Labels of a run *)

Definition fatigue_label : Label :=
  {| label_text := "Fatigue ALERT!"; alert_style := true |}.

(** [s] has no capital A in it, as any text a float formats to. *)
Fixpoint no_capital_A (s : string) : bool :=
  match s with
  | EmptyString => true
  | String c rest => negb (Ascii.eqb c "A") && no_capital_A rest
  end.

Definition plain_numbers (env : Env) : Prop :=
  forall (n : nat) (x : Q), no_capital_A (format_fixed env n x) = true.

(** A label has the red alert background exactly when it is one of the two
    alert banners. *)
Definition banner_ok (l : Label) : Prop :=
  alert_style l = true <-> (l = fatigue_label \/ l = no_face_label).

(** * Properties *)

Local Open Scope list_scope.

(** ** Comparisons *)

Lemma Qgeb_true x y : Qgeb x y = true <-> (y <= x)%Q.
Proof. unfold Qgeb. apply Qle_bool_iff. Qed.

Lemma Qgeb_false x y : Qgeb x y = false <-> (x < y)%Q.
Proof.
  unfold Qgeb. split; intros H.
  - apply Qnot_le_lt. intros Hle. apply Qle_bool_iff in Hle. congruence.
  - destruct (Qle_bool y x) eqn:E; [|reflexivity].
    apply Qle_bool_iff in E. exfalso. exact (Qlt_not_le _ _ H E).
Qed.

Lemma Qltb_true x y : Qltb x y = true <-> (x < y)%Q.
Proof.
  unfold Qltb. rewrite negb_true_iff. apply (Qgeb_false x y).
Qed.

Lemma Qltb_false x y : Qltb x y = false <-> (y <= x)%Q.
Proof.
  unfold Qltb. rewrite negb_false_iff. apply (Qgeb_true x y).
Qed.

Global Instance Qgeb_proper : Proper (Qeq ==> Qeq ==> eq) Qgeb.
Proof.
  intros x x' Hx y y' Hy. unfold Qgeb.
  destruct (Qle_bool y x) eqn:E, (Qle_bool y' x') eqn:E'; try reflexivity.
  - apply Qle_bool_iff in E. rewrite Hx, Hy in E.
    apply Qle_bool_iff in E. congruence.
  - apply Qle_bool_iff in E'. rewrite <- Hx, <- Hy in E'.
    apply Qle_bool_iff in E'. congruence.
Qed.

Lemma count_event_app event cs cs' :
  count_event event (cs ++ cs') = (count_event event cs + count_event event cs')%nat.
Proof. unfold count_event. rewrite List.filter_app, length_app. reflexivity. Qed.

Lemma audio_calls_app cs cs' :
  audio_calls (cs ++ cs') = audio_calls cs ++ audio_calls cs'.
Proof. unfold audio_calls. apply List.filter_app. Qed.

Lemma config_eq d d' :
  config d = config d' ->
  EAR_THRESH d = EAR_THRESH d'
  /\ CLOSED_EYES_FRAME d = CLOSED_EYES_FRAME d'
  /\ beep_interval_seconds d = beep_interval_seconds d'
  /\ fatigue_increase_per_frame d = fatigue_increase_per_frame d'
  /\ fatigue_decay_per_frame d = fatigue_decay_per_frame d'
  /\ fatigue_alert_threshold d = fatigue_alert_threshold d'
  /\ guard_mode d = guard_mode d'
  /\ headless d = headless d'
  /\ fullscreen d = fullscreen d'
  /\ log_path d = log_path d'
  /\ no_face_timeout_seconds d = no_face_timeout_seconds d'
  /\ escalation_seconds d = escalation_seconds d'.
Proof.
  unfold config. intros H. injection H as H1 H2 H3 H4 H5 H6 H7 H8 H9 H10 H11 H12.
  repeat split; assumption.
Qed.

Section Methods.

Variable env : Env.

(** *** Backend calls only add to the traces *)

Lemma play_beep_self w : self (_play_beep env w) = self w.
Proof. unfold _play_beep. repeat case_match; reflexivity. Qed.

Lemma play_beep_calls w : calls (_play_beep env w) = calls w ++ [CallPlayBeep].
Proof. unfold _play_beep. repeat case_match; reflexivity. Qed.

Lemma play_beep_ticks w : ticks (_play_beep env w) = ticks w.
Proof. unfold _play_beep. repeat case_match; reflexivity. Qed.

Lemma play_beep_screen w : screen (_play_beep env w) = screen w.
Proof. unfold _play_beep. repeat case_match; reflexivity. Qed.

Lemma play_beep_disk w : disk (_play_beep env w) = disk w.
Proof. unfold _play_beep. repeat case_match; reflexivity. Qed.

Lemma play_escalation_beep_self w : self (_play_escalation_beep env w) = self w.
Proof. unfold _play_escalation_beep. repeat case_match; reflexivity. Qed.

Lemma play_escalation_beep_calls w :
  calls (_play_escalation_beep env w) = calls w ++ [CallPlayEscalationBeep].
Proof. unfold _play_escalation_beep. repeat case_match; reflexivity. Qed.

Lemma play_escalation_beep_ticks w :
  ticks (_play_escalation_beep env w) = ticks w.
Proof. unfold _play_escalation_beep. repeat case_match; reflexivity. Qed.

Lemma play_escalation_beep_screen w :
  screen (_play_escalation_beep env w) = screen w.
Proof. unfold _play_escalation_beep. repeat case_match; reflexivity. Qed.

Lemma play_escalation_beep_disk w :
  disk (_play_escalation_beep env w) = disk w.
Proof. unfold _play_escalation_beep. repeat case_match; reflexivity. Qed.

Lemma stop_audio_self w : self (_stop_audio env w) = self w.
Proof. unfold _stop_audio. repeat case_match; reflexivity. Qed.

Lemma stop_audio_calls w : calls (_stop_audio env w) = calls w ++ [CallStopAudio].
Proof. unfold _stop_audio. repeat case_match; reflexivity. Qed.

Lemma stop_audio_ticks w : ticks (_stop_audio env w) = ticks w.
Proof. unfold _stop_audio. repeat case_match; reflexivity. Qed.

Lemma stop_audio_screen w : screen (_stop_audio env w) = screen w.
Proof. unfold _stop_audio. repeat case_match; reflexivity. Qed.

Lemma stop_audio_disk w : disk (_stop_audio env w) = disk w.
Proof. unfold _stop_audio. repeat case_match; reflexivity. Qed.

(** *** The logger leaves the detector alone *)

Lemma log_event_self event w : self (_maybe_log_event env event w) = self w.
Proof. unfold _maybe_log_event. repeat case_match; reflexivity. Qed.

Lemma log_event_calls event w :
  calls (_maybe_log_event env event w) = calls w ++ [CallLogEvent event].
Proof. unfold _maybe_log_event. repeat case_match; reflexivity. Qed.

Lemma log_event_screen event w :
  screen (_maybe_log_event env event w) = screen w.
Proof. unfold _maybe_log_event. repeat case_match; reflexivity. Qed.

Lemma log_event_ticks event w :
  ticks (_maybe_log_event env event w) = (ticks w + log_reads (self w))%nat.
Proof.
  unfold _maybe_log_event, log_reads. simpl.
  repeat case_match; simpl; lia.
Qed.

End Methods.

(** ** The audio alert controller *)

Section Controller.

Variable env : Env.

Lemma handle_audio_alert_shape active w :
  let w' := _handle_audio_alert env active w in
  self w' = set_last_beep_time (last_beep_time (self w'))
              (set_alert_active active (self w)).
Proof.
  destruct w as [d k cs snd scr dk]. destruct d.
  unfold _handle_audio_alert. cbn [self upd alert_active set_alert_active
    set_last_beep_time tick last_beep_time beep_interval_seconds reading ticks].
  destruct active, alert_active0; cbn;
    rewrite ?stop_audio_self; cbn; try reflexivity;
    case_match; cbn; rewrite ?play_beep_self; reflexivity.
Qed.

Lemma handle_audio_alert_active active w :
  alert_active (self (_handle_audio_alert env active w)) = active.
Proof. rewrite handle_audio_alert_shape. reflexivity. Qed.

Lemma handle_audio_alert_screen active w :
  screen (_handle_audio_alert env active w) = screen w.
Proof.
  unfold _handle_audio_alert.
  repeat case_match; cbn;
    rewrite ?stop_audio_screen, ?play_beep_screen; reflexivity.
Qed.

Lemma handle_audio_alert_disk active w :
  disk (_handle_audio_alert env active w) = disk w.
Proof.
  unfold _handle_audio_alert.
  repeat case_match; cbn;
    rewrite ?stop_audio_disk, ?play_beep_disk; reflexivity.
Qed.

(** Falling edge or idle: [active=False]. *)
Lemma handle_audio_alert_false_calls w :
  calls (_handle_audio_alert env false w)
  = calls w ++ (if alert_active (self w) then [CallStopAudio] else []).
Proof.
  unfold _handle_audio_alert. cbn.
  destruct (alert_active (self w)); cbn.
  - rewrite stop_audio_calls. reflexivity.
  - rewrite app_nil_r. reflexivity.
Qed.

Lemma handle_audio_alert_false_ticks w :
  ticks (_handle_audio_alert env false w) = ticks w.
Proof.
  unfold _handle_audio_alert. cbn.
  destruct (alert_active (self w)); cbn; rewrite ?stop_audio_ticks; reflexivity.
Qed.

Lemma handle_audio_alert_false_last_beep w :
  last_beep_time (self (_handle_audio_alert env false w)) = last_beep_time (self w).
Proof.
  unfold _handle_audio_alert. cbn.
  destruct (alert_active (self w)); cbn; rewrite ?stop_audio_self; reflexivity.
Qed.

(** Rising edge or sustained alert: [active=True]. *)
Lemma handle_audio_alert_true_calls w :
  calls (_handle_audio_alert env true w)
  = calls w ++ (if beep_due env w then [CallPlayBeep] else []).
Proof.
  unfold _handle_audio_alert, beep_due, throttle, reading. cbn.
  destruct (alert_active (self w)) eqn:Ha; cbn; rewrite ?Ha; cbn;
    case_match; cbn; rewrite ?play_beep_calls, ?app_nil_r; reflexivity.
Qed.

Lemma handle_audio_alert_true_ticks w :
  ticks (_handle_audio_alert env true w) = S (ticks w).
Proof.
  unfold _handle_audio_alert. cbn.
  destruct (alert_active (self w)) eqn:Ha; cbn; rewrite ?Ha; cbn;
    case_match; cbn; rewrite ?play_beep_ticks; reflexivity.
Qed.

Lemma handle_audio_alert_true_last_beep w :
  last_beep_time (self (_handle_audio_alert env true w))
  = if beep_due env w then reading env w else throttle (self w).
Proof.
  unfold _handle_audio_alert, beep_due, throttle, reading. cbn.
  destruct (alert_active (self w)) eqn:Ha; cbn; rewrite ?Ha; cbn;
    case_match; cbn; rewrite ?play_beep_self; reflexivity.
Qed.

End Controller.

(** ** Rising edge followed by a falling edge *)

(** C4, as stated, fails: on a detector that has just been built, with the
    clock standing still between the two frames (so less than
    [beep_interval_seconds] elapse), the rising edge itself plays the beep
    before the falling edge stops it. *)
Lemma rising_then_falling_plays_once :
  alert_active (self w_idle) = false /\
  (time_time env_epoch (S (ticks w_idle)) - time_time env_epoch (ticks w_idle)
   < beep_interval_seconds (self w_idle))%Q /\
  calls (rising_then_falling env_epoch w_idle) = [CallPlayBeep; CallStopAudio].
Proof. split; [reflexivity|]. split; reflexivity. Qed.

(** C4, amended: a rising edge immediately followed by a falling edge calls
    stop-playback exactly once, on the second frame, and calls play exactly
    once, on the rising-edge frame itself, when the clock reading is at least
    [beep_interval_seconds] (the throttle was reset to 0 to force an
    immediate beep), and not at all otherwise. *)
Theorem rising_then_falling_calls env w :
  alert_active (self w) = false ->
  calls (rising_then_falling env w)
  = calls w
    ++ (if Qgeb (reading env w) (beep_interval_seconds (self w))
        then [CallPlayBeep] else [])
    ++ [CallStopAudio]
  /\ alert_active (self (rising_then_falling env w)) = false.
Proof.
  intros Hidle. unfold rising_then_falling. split.
  - rewrite handle_audio_alert_false_calls, handle_audio_alert_active.
    rewrite handle_audio_alert_true_calls, <- app_assoc.
    unfold beep_due, throttle. rewrite Hidle.
    assert (E : (reading env w - 0 == reading env w)%Q) by ring.
    rewrite E. reflexivity.
  - apply handle_audio_alert_active.
Qed.

Lemma rising_then_falling_calls_witness :
  calls (rising_then_falling env_epoch w_idle)
  = calls w_idle
    ++ (if Qgeb (reading env_epoch w_idle) (beep_interval_seconds (self w_idle))
        then [CallPlayBeep] else [])
    ++ [CallStopAudio]
  /\ alert_active (self (rising_then_falling env_epoch w_idle)) = false.
Proof. apply (rising_then_falling_calls env_epoch w_idle). reflexivity. Defined.

(** ** Face frames *)

Section FaceFrames.

Variable env : Env.

Lemma put_text_self text w : self (put_text_with_background text w) = self w.
Proof. reflexivity. Qed.

Lemma put_text_calls text w : calls (put_text_with_background text w) = calls w.
Proof. reflexivity. Qed.

Lemma put_text_ticks text w : ticks (put_text_with_background text w) = ticks w.
Proof. reflexivity. Qed.

Lemma put_text_disk text w : disk (put_text_with_background text w) = disk w.
Proof. reflexivity. Qed.

Lemma handle_audio_alert_config active w :
  config (self (_handle_audio_alert env active w)) = config (self w).
Proof. rewrite handle_audio_alert_shape. reflexivity. Qed.

(** Eyes closed: the scorer's update, then the alert branch when the
    condition holds. *)
Lemma process_frame_closed_self e w :
  Qltb e (EAR_THRESH (self w)) = true ->
  let d := scorer_closed (reading env w) (self w) in
  let w' := process_frame env (Some e) w in
  self w' = if fatigue_alert_condition d
            then set_last_beep_time (last_beep_time (self w'))
                   (set_alert_active true d)
            else d.
Proof.
  intros Hlt. cbv zeta. unfold process_frame.
  rewrite !put_text_self.
  cbn [self upd tick EAR_THRESH set_last_face_time]. rewrite Hlt.
  cbn [self upd tick counter fatigue_score fatigue_increase_per_frame
       set_counter set_fatigue_score set_last_face_time].
  fold (scorer_closed (reading env w) (self w)).
  destruct (fatigue_alert_condition _); [|reflexivity].
  rewrite log_event_self.
  rewrite (handle_audio_alert_shape env true) at 1. reflexivity.
Qed.

Lemma process_frame_closed_calls e w :
  Qltb e (EAR_THRESH (self w)) = true ->
  let d := scorer_closed (reading env w) (self w) in
  calls (process_frame env (Some e) w)
  = calls w
    ++ (if fatigue_alert_condition d
        then (if beep_due env (upd (fun _ => d) (tick w))
              then [CallPlayBeep] else [])
             ++ [CallLogEvent "FATIGUE_ALERT"]
        else []).
Proof.
  intros Hlt. cbv zeta. unfold process_frame.
  rewrite !put_text_calls.
  cbn [self upd tick EAR_THRESH set_last_face_time]. rewrite Hlt.
  cbn [self upd tick counter fatigue_score fatigue_increase_per_frame
       set_counter set_fatigue_score set_last_face_time].
  fold (scorer_closed (reading env w) (self w)).
  destruct (fatigue_alert_condition _); [|rewrite app_nil_r; reflexivity].
  rewrite log_event_calls, handle_audio_alert_true_calls, put_text_calls.
  rewrite <- app_assoc. reflexivity.
Qed.

(** Eyes open: the scorer's update, then the controller with
    [active=False]. *)
Lemma process_frame_open_self e w :
  Qltb e (EAR_THRESH (self w)) = false ->
  self (process_frame env (Some e) w)
  = set_alert_active false (scorer_open (reading env w) (self w)).
Proof.
  intros Hge. unfold process_frame.
  rewrite !put_text_self.
  cbn [self upd tick EAR_THRESH set_last_face_time]. rewrite Hge.
  rewrite handle_audio_alert_shape, handle_audio_alert_false_last_beep.
  cbn [self upd tick counter fatigue_score fatigue_decay_per_frame
       set_counter set_fatigue_score set_last_face_time].
  fold (scorer_open (reading env w) (self w)).
  destruct (self w); reflexivity.
Qed.

Lemma process_frame_open_calls e w :
  Qltb e (EAR_THRESH (self w)) = false ->
  calls (process_frame env (Some e) w)
  = calls w ++ (if alert_active (self w) then [CallStopAudio] else []).
Proof.
  intros Hge. unfold process_frame.
  rewrite !put_text_calls.
  cbn [self upd tick EAR_THRESH set_last_face_time]. rewrite Hge.
  rewrite handle_audio_alert_false_calls. reflexivity.
Qed.

End FaceFrames.

(** ** No-face frames *)

Section NoFaceFrames.

Variable env : Env.

Lemma handle_no_face_off w :
  guard_mode (self w) = false -> _handle_no_face env w = w.
Proof. intros H. unfold _handle_no_face. rewrite H. reflexivity. Qed.

(** QUIET: the face was seen less than the timeout ago. *)
Lemma handle_no_face_quiet_self w :
  guard_mode (self w) = true ->
  Qgeb (seconds_since_face env w) (no_face_timeout_seconds (self w)) = false ->
  self (_handle_no_face env w)
  = set_alert_active false
      (set_guard_alert_active false (set_guard_escalated false (self w))).
Proof.
  intros Hg Hq. unfold _handle_no_face, seconds_since_face in *.
  rewrite Hg. cbn [negb self tick no_face_timeout_seconds]. rewrite Hq.
  rewrite handle_audio_alert_shape, handle_audio_alert_false_last_beep.
  cbn [self upd]. 
  destruct (alert_active (self w) || guard_alert_active (self w));
    rewrite ?log_event_self; cbn [self tick]; destruct (self w); reflexivity.
Qed.

Lemma handle_no_face_quiet_calls w :
  guard_mode (self w) = true ->
  Qgeb (seconds_since_face env w) (no_face_timeout_seconds (self w)) = false ->
  calls (_handle_no_face env w)
  = calls w
    ++ (if alert_active (self w) || guard_alert_active (self w)
        then [CallLogEvent "ALERT_CLEARED"] else [])
    ++ (if alert_active (self w) then [CallStopAudio] else []).
Proof.
  intros Hg Hq. unfold _handle_no_face, seconds_since_face in *.
  rewrite Hg. cbn [negb self tick no_face_timeout_seconds]. rewrite Hq.
  rewrite handle_audio_alert_false_calls. cbn [self upd].
  destruct (alert_active (self w) || guard_alert_active (self w));
    cbn [calls upd alert_active set_guard_alert_active set_guard_escalated];
    rewrite ?log_event_calls, ?log_event_self; cbn [calls tick self];
    rewrite <- ?app_assoc; reflexivity.
Qed.

Lemma handle_no_face_quiet_screen w :
  guard_mode (self w) = true ->
  Qgeb (seconds_since_face env w) (no_face_timeout_seconds (self w)) = false ->
  screen (_handle_no_face env w) = screen w.
Proof.
  intros Hg Hq. unfold _handle_no_face, seconds_since_face in *.
  rewrite Hg. cbn [negb self tick no_face_timeout_seconds]. rewrite Hq.
  rewrite handle_audio_alert_screen. cbn [screen upd].
  destruct (alert_active (self w) || guard_alert_active (self w));
    rewrite ?log_event_screen; reflexivity.
Qed.

(** ALERTING: past the timeout, not past the escalation window. *)
Lemma handle_no_face_alert_self w :
  guard_mode (self w) = true ->
  Qgeb (seconds_since_face env w) (no_face_timeout_seconds (self w)) = true ->
  Qgeb (seconds_since_face env w)
       (no_face_timeout_seconds (self w) + escalation_seconds (self w))%Q = false ->
  let w' := _handle_no_face env w in
  self w' = set_last_beep_time (last_beep_time (self w'))
              (set_alert_active true (self w)).
Proof.
  intros Hg Ha He. cbv zeta. unfold _handle_no_face, seconds_since_face in *.
  rewrite Hg. cbn [negb self tick no_face_timeout_seconds]. rewrite Ha.
  rewrite !log_event_self.
  assert (Hc : config (self (_handle_audio_alert env true
             (put_text_with_background "No Face ALERT!" (tick w))))
          = config (self w)) by (rewrite handle_audio_alert_config; reflexivity).
  destruct (config_eq _ _ Hc)
    as (_ & _ & _ & _ & _ & _ & _ & _ & _ & _ & Ht & Hs).
  rewrite Ht, Hs, He.
  rewrite log_event_self.
  rewrite (handle_audio_alert_shape env true) at 1. reflexivity.
Qed.

Lemma handle_no_face_alert_calls w :
  guard_mode (self w) = true ->
  Qgeb (seconds_since_face env w) (no_face_timeout_seconds (self w)) = true ->
  Qgeb (seconds_since_face env w)
       (no_face_timeout_seconds (self w) + escalation_seconds (self w))%Q = false ->
  calls (_handle_no_face env w)
  = calls w
    ++ (if beep_due env (tick w) then [CallPlayBeep] else [])
    ++ [CallLogEvent "NO_FACE_ALERT"].
Proof.
  intros Hg Ha He. unfold _handle_no_face, seconds_since_face in *.
  rewrite Hg. cbn [negb self tick no_face_timeout_seconds]. rewrite Ha.
  rewrite !log_event_self.
  assert (Hc : config (self (_handle_audio_alert env true
             (put_text_with_background "No Face ALERT!" (tick w))))
          = config (self w)) by (rewrite handle_audio_alert_config; reflexivity).
  destruct (config_eq _ _ Hc)
    as (_ & _ & _ & _ & _ & _ & _ & _ & _ & _ & Ht & Hs).
  rewrite Ht, Hs, He.
  rewrite log_event_calls, handle_audio_alert_true_calls, put_text_calls.
  rewrite <- app_assoc. reflexivity.
Qed.

(** ESCALATED: past the timeout and past the escalation window. *)
Lemma handle_no_face_escalated w :
  guard_mode (self w) = true ->
  Qgeb (seconds_since_face env w) (no_face_timeout_seconds (self w)) = true ->
  Qgeb (seconds_since_face env w)
       (no_face_timeout_seconds (self w) + escalation_seconds (self w))%Q = true ->
  let w' := _handle_no_face env w in
  calls w'
  = calls w
    ++ (if beep_due env (tick w) then [CallPlayBeep] else [])
    ++ [CallLogEvent "NO_FACE_ALERT"]
    ++ (if guard_escalated (self w) then [] else [CallLogEvent "ALERT_ESCALATED"])
    ++ (if escalation_due env w then [CallPlayEscalationBeep] else [])
  /\ self w' = set_last_beep_time (last_beep_time (self w'))
                 (set_guard_escalated true (set_alert_active true (self w))).
Proof.
  intros Hg Ha He. cbv zeta. unfold _handle_no_face, seconds_since_face in *.
  rewrite Hg. cbn [negb self tick no_face_timeout_seconds]. rewrite Ha.
  rewrite !log_event_self.
  set (w2 := _handle_audio_alert env true
               (put_text_with_background "No Face ALERT!" (tick w))).
  assert (Hc : config (self w2) = config (self w))
    by (unfold w2; rewrite handle_audio_alert_config; reflexivity).
  assert (Hs : self w2 = set_last_beep_time (throttle_after_beep env w)
                           (set_alert_active true (self w))).
  { unfold w2. rewrite handle_audio_alert_shape.
    rewrite handle_audio_alert_true_last_beep. reflexivity. }
  assert (Hk : ticks w2 = S (S (ticks w)))
    by (unfold w2; rewrite handle_audio_alert_true_ticks; reflexivity).
  assert (Hcs : calls w2
                = calls w ++ (if beep_due env (tick w) then [CallPlayBeep] else []))
    by (unfold w2; rewrite handle_audio_alert_true_calls; reflexivity).
  clearbody w2.
  destruct (config_eq _ _ Hc)
    as (_ & _ & _ & _ & _ & _ & _ & _ & _ & _ & Ht & Hsec).
  rewrite Ht, Hsec, He.
  set (w4 := if negb (guard_escalated (self w2)) then _ else _).
  assert (Hs4 : self w4 = set_guard_escalated true (self w2)).
  { unfold w4. destruct (guard_escalated (self w2)) eqn:Hge; cbn [negb].
    - rewrite log_event_self. destruct (self w2); cbn in *. subst. reflexivity.
    - rewrite log_event_self. cbn [self upd]. rewrite log_event_self.
      reflexivity. }
  assert (Hlr : log_reads (self w2) = log_reads (self w))
    by (rewrite Hs; reflexivity).
  assert (Hge2 : guard_escalated (self w2) = guard_escalated (self w))
    by (rewrite Hs; reflexivity).
  assert (Hk4 : reading env w4 = escalation_reading env w).
  { unfold reading, escalation_reading, w4. f_equal.
    rewrite <- Hge2, <- Hlr.
    destruct (guard_escalated (self w2)); cbn [negb];
      rewrite !log_event_ticks; cbn [self upd ticks];
      rewrite ?log_event_ticks, ?log_event_self, Hk; unfold log_reads; cbn; lia. }
  assert (Hcs4 : calls w4 = calls w2 ++ [CallLogEvent "NO_FACE_ALERT"]
            ++ (if guard_escalated (self w) then []
                else [CallLogEvent "ALERT_ESCALATED"])).
  { unfold w4. rewrite <- Hge2.
    destruct (guard_escalated (self w2)); cbn [negb];
      rewrite !log_event_calls; cbn [calls upd];
      rewrite ?log_event_calls, <- ?app_assoc; reflexivity. }
  clearbody w4. cbn [self tick]. rewrite Hk4, Hs4, Hs.
  cbn [last_beep_time beep_interval_seconds set_guard_escalated
       set_last_beep_time set_alert_active].
  change (Qgeb _ _) with (escalation_due env w).
  destruct (escalation_due env w); cbn [calls self upd tick].
  - rewrite play_escalation_beep_calls, play_escalation_beep_self.
    cbn [calls self tick]. rewrite Hcs4, Hcs, Hs4, Hs, <- !app_assoc.
    split; reflexivity.
  - rewrite Hcs4, Hcs, Hs4, Hs, <- !app_assoc.
    split; [rewrite app_nil_r|]; reflexivity.
Qed.

Lemma handle_no_face_screen w :
  guard_mode (self w) = true ->
  screen (_handle_no_face env w)
  = screen w
    ++ (if Qgeb (seconds_since_face env w) (no_face_timeout_seconds (self w))
        then [no_face_label] else []).
Proof.
  intros Hg.
  destruct (Qgeb (seconds_since_face env w) (no_face_timeout_seconds (self w)))
    eqn:Ha.
  - unfold _handle_no_face, seconds_since_face in *.
    rewrite Hg. cbn [negb self tick no_face_timeout_seconds]. rewrite Ha.
    set (w3 := _maybe_log_event env "NO_FACE_ALERT" _).
    assert (H3 : screen w3 = screen w ++ [no_face_label]).
    { unfold w3. rewrite log_event_screen, handle_audio_alert_screen.
      reflexivity. }
    clearbody w3.
    destruct (Qgeb _ (_ + _)%Q); [|exact H3].
    set (w4 := if negb (guard_escalated (self w3)) then _ else _).
    assert (H4 : screen w4 = screen w3).
    { unfold w4. destruct (negb _); [|reflexivity].
      rewrite log_event_screen. reflexivity. }
    clearbody w4.
    destruct (Qgeb (reading env w4 - _)%Q _); cbn [screen upd tick];
      rewrite ?play_escalation_beep_screen; cbn [screen tick];
      rewrite H4; exact H3.
  - rewrite (handle_no_face_quiet_screen w Hg Ha), app_nil_r. reflexivity.
Qed.

Lemma handle_no_face_ticks w : (ticks w <= ticks (_handle_no_face env w))%nat.
Proof.
  unfold _handle_no_face.
  repeat case_match;
    repeat progress
      (cbn [ticks upd tick put_text_with_background add_label];
       rewrite ?play_escalation_beep_ticks, ?log_event_ticks,
         ?handle_audio_alert_true_ticks, ?handle_audio_alert_false_ticks);
    lia.
Qed.

(** The three readings of a no-face frame in guard mode. *)
Lemma handle_no_face_cases w :
  guard_mode (self w) = true ->
  let ssf := seconds_since_face env w in
  let d := self w in
  Qgeb ssf (no_face_timeout_seconds d) = false
  \/ (Qgeb ssf (no_face_timeout_seconds d) = true
      /\ Qgeb ssf (no_face_timeout_seconds d + escalation_seconds d)%Q = false)
  \/ (Qgeb ssf (no_face_timeout_seconds d) = true
      /\ Qgeb ssf (no_face_timeout_seconds d + escalation_seconds d)%Q = true).
Proof.
  intros _. cbv zeta.
  destruct (Qgeb _ (no_face_timeout_seconds _)); [|left; reflexivity].
  destruct (Qgeb _ (_ + _)%Q); [right; right|right; left]; split; reflexivity.
Qed.

Lemma handle_no_face_config w :
  config (self (_handle_no_face env w)) = config (self w)
  /\ last_face_time (self (_handle_no_face env w)) = last_face_time (self w)
  /\ counter (self (_handle_no_face env w)) = counter (self w)
  /\ fatigue_score (self (_handle_no_face env w)) = fatigue_score (self w).
Proof.
  destruct (guard_mode (self w)) eqn:Hg.
  - destruct (handle_no_face_cases w Hg) as [Hq | [[Ha He] | [Ha He]]].
    + rewrite (handle_no_face_quiet_self w Hg Hq). repeat split; reflexivity.
    + rewrite (handle_no_face_alert_self w Hg Ha He). repeat split; reflexivity.
    + destruct (handle_no_face_escalated w Hg Ha He) as [_ Hs].
      rewrite Hs. repeat split; reflexivity.
  - rewrite (handle_no_face_off w Hg). repeat split; reflexivity.
Qed.

End NoFaceFrames.

(** ** The guard timeline *)

Section GuardTimeline.

Variable env : Env.

Lemma count_event_beep event (b : bool) (c : Call) :
  is_event event c = false ->
  count_event event (if b then [c] else []) = 0%nat.
Proof.
  intros H. destruct b; [|reflexivity].
  unfold count_event. cbn. rewrite H. reflexivity.
Qed.

Lemma count_play_app cs cs' :
  count_play (cs ++ cs') = (count_play cs + count_play cs')%nat.
Proof. unfold count_play. rewrite List.filter_app, length_app. reflexivity. Qed.

(** One no-face frame, read against the two thresholds. *)
Lemma no_face_frame_quiet w :
  guard_mode (self w) = true ->
  (seconds_since_face env w < no_face_timeout_seconds (self w))%Q ->
  let w' := process_frame env None w in
  screen w' = screen w
  /\ alert_active (self w') = false
  /\ guard_escalated (self w') = false
  /\ count_event "NO_FACE_ALERT" (calls w') = count_event "NO_FACE_ALERT" (calls w)
  /\ count_event "ALERT_ESCALATED" (calls w') = count_event "ALERT_ESCALATED" (calls w)
  /\ count_play (calls w') = count_play (calls w).
Proof.
  intros Hg Hlt. apply Qgeb_false in Hlt. cbv zeta. cbn [process_frame].
  rewrite (handle_no_face_quiet_self env w Hg Hlt).
  rewrite (handle_no_face_quiet_calls env w Hg Hlt).
  rewrite handle_no_face_screen by exact Hg. rewrite Hlt, app_nil_r.
  rewrite !count_event_app, !count_play_app.
  repeat split; try reflexivity;
    destruct (alert_active (self w) || guard_alert_active (self w)),
             (alert_active (self w)); cbn; lia.
Qed.

Lemma no_face_frame_alert w :
  guard_mode (self w) = true ->
  (no_face_timeout_seconds (self w) <= seconds_since_face env w)%Q ->
  let w' := process_frame env None w in
  screen w' = screen w ++ [no_face_label]
  /\ alert_active (self w') = true
  /\ count_event "NO_FACE_ALERT" (calls w')
     = S (count_event "NO_FACE_ALERT" (calls w)).
Proof.
  intros Hg Hle. apply Qgeb_true in Hle. cbv zeta. cbn [process_frame].
  rewrite handle_no_face_screen by exact Hg. rewrite Hle.
  split; [reflexivity|].
  destruct (Qgeb (seconds_since_face env w)
              (no_face_timeout_seconds (self w) + escalation_seconds (self w))%Q)
    eqn:He.
  - destruct (handle_no_face_escalated env w Hg Hle He) as [Hc Hs].
    rewrite Hs, Hc. split; [reflexivity|].
    rewrite !count_event_app, !count_event_beep by reflexivity.
    destruct (guard_escalated (self w)); cbn; lia.
  - rewrite (handle_no_face_alert_self env w Hg Hle He).
    rewrite (handle_no_face_alert_calls env w Hg Hle He).
    split; [reflexivity|].
    rewrite !count_event_app, !count_event_beep by reflexivity. cbn. lia.
Qed.

Lemma no_face_frame_not_escalated w :
  guard_mode (self w) = true ->
  (seconds_since_face env w
   < no_face_timeout_seconds (self w) + escalation_seconds (self w))%Q ->
  (no_face_timeout_seconds (self w) <= seconds_since_face env w)%Q ->
  let w' := process_frame env None w in
  guard_escalated (self w') = guard_escalated (self w)
  /\ count_event "ALERT_ESCALATED" (calls w')
     = count_event "ALERT_ESCALATED" (calls w).
Proof.
  intros Hg He Ha. apply Qgeb_false in He. apply Qgeb_true in Ha.
  cbv zeta. cbn [process_frame].
  rewrite (handle_no_face_alert_self env w Hg Ha He).
  rewrite (handle_no_face_alert_calls env w Hg Ha He).
  split; [reflexivity|].
  rewrite !count_event_app, !count_event_beep by reflexivity. cbn. lia.
Qed.

Lemma no_face_frame_escalated w :
  guard_mode (self w) = true ->
  (no_face_timeout_seconds (self w) <= seconds_since_face env w)%Q ->
  (no_face_timeout_seconds (self w) + escalation_seconds (self w)
   <= seconds_since_face env w)%Q ->
  let w' := process_frame env None w in
  guard_escalated (self w') = true
  /\ count_event "ALERT_ESCALATED" (calls w')
     = (count_event "ALERT_ESCALATED" (calls w)
        + (if guard_escalated (self w) then 0 else 1))%nat.
Proof.
  intros Hg Ha He. apply Qgeb_true in He. apply Qgeb_true in Ha.
  cbv zeta. cbn [process_frame].
  destruct (handle_no_face_escalated env w Hg Ha He) as [Hc Hs].
  rewrite Hs, Hc. split; [reflexivity|].
  rewrite !count_event_app, !count_event_beep by reflexivity.
  destruct (guard_escalated (self w)); cbn; lia.
Qed.

(** Over one no-face frame the count of ALERT_ESCALATED events grows
    exactly when [guard_escalated] flips from false to true. *)
Lemma no_face_frame_step w :
  guard_mode (self w) = true ->
  (0 <= escalation_seconds (self w))%Q ->
  monotone_clock env ->
  escalation_holds env w ->
  let w' := process_frame env None w in
  escalation_holds env w'
  /\ (guard_escalated (self w) = true -> guard_escalated (self w') = true)
  /\ (count_event "ALERT_ESCALATED" (calls w') + Nat.b2n (guard_escalated (self w))
      = count_event "ALERT_ESCALATED" (calls w)
        + Nat.b2n (guard_escalated (self w')))%nat.
Proof.
  intros Hg HE Hmono HJ. cbv zeta.
  set (T := no_face_timeout_seconds (self w)) in *.
  set (E := escalation_seconds (self w)) in *.
  assert (HTE : (T <= T + E)%Q).
  { rewrite <- (Qplus_0_r T) at 1. apply Qplus_le_r. exact HE. }
  destruct (Qlt_le_dec (seconds_since_face env w) (T + E)) as [Hlow | Hhigh].
  - (* not past the escalation window: the flag was not set *)
    assert (Hge : guard_escalated (self w) = false).
    { destruct (guard_escalated (self w)) eqn:G; [|reflexivity].
      exfalso. apply (Qlt_not_le _ _ Hlow). apply HJ. exact G. }
    destruct (Qlt_le_dec (seconds_since_face env w) T) as [Hq | Ha].
    + destruct (no_face_frame_quiet w Hg Hq) as (_ & _ & Hge' & _ & Hc & _).
      rewrite Hge', Hc, Hge.
      split; [intros G; congruence | split; [congruence | reflexivity]].
    + destruct (no_face_frame_not_escalated w Hg Hlow Ha) as [Hge' Hc].
      rewrite Hge', Hc, Hge.
      split; [intros G; congruence | split; [congruence | reflexivity]].
  - assert (Ha : (T <= seconds_since_face env w)%Q)
      by (eapply Qle_trans; eassumption).
    destruct (no_face_frame_escalated w Hg Ha Hhigh) as [Hge' Hc].
    rewrite Hge', Hc. repeat split.
    + intros _. cbn [process_frame].
      destruct (handle_no_face_config env w) as (Hcfg & Hlf & _).
      destruct (config_eq _ _ Hcfg)
        as (_ & _ & _ & _ & _ & _ & _ & _ & _ & _ & Ht & Hs).
      unfold seconds_since_face in *. rewrite Ht, Hs, Hlf.
      eapply Qle_trans; [exact Hhigh|].
      apply Qplus_le_l. apply Hmono. apply handle_no_face_ticks.
    + destruct (guard_escalated (self w)); cbn; lia.
Qed.

(** A run of no-face frames: the same, from the first frame to the last. *)
Lemma no_face_frames_run n : forall w,
  guard_mode (self w) = true ->
  (0 <= escalation_seconds (self w))%Q ->
  monotone_clock env ->
  escalation_holds env w ->
  let w' := process_frames env (repeat None n) w in
  (guard_escalated (self w) = true -> guard_escalated (self w') = true)
  /\ (count_event "ALERT_ESCALATED" (calls w') + Nat.b2n (guard_escalated (self w))
      = count_event "ALERT_ESCALATED" (calls w)
        + Nat.b2n (guard_escalated (self w')))%nat.
Proof.
  induction n as [|n IH]; intros w Hg HE Hmono HJ; cbv zeta.
  - cbn. split; [tauto | lia].
  - cbn [repeat process_frames].
    destruct (no_face_frame_step w Hg HE Hmono HJ) as (HJ' & Hkeep & Hc).
    destruct (handle_no_face_config env w) as (Hcfg & _).
    destruct (config_eq _ _ Hcfg)
      as (_ & _ & _ & _ & _ & _ & Hg' & _ & _ & _ & _ & Hs).
    cbn [process_frame] in *.
    destruct (IH (_handle_no_face env w)) as [Hkeep' Hc'];
      [congruence | rewrite Hs; exact HE | exact Hmono | exact HJ' |].
    cbv zeta in *. split; [tauto | lia].
Qed.

End GuardTimeline.

(** C5. In guard mode with a timeout of 10 s and an escalation window of
    60 s, on a clock that does not run backwards, a no-face frame
    - read less than 10 s after the last face raises no alert: no label, the
      audio alert is off, no NO_FACE_ALERT or ALERT_ESCALATED event, no tone;
    - read 10 s or more after it raises the alert: label, audio alert on, one
      NO_FACE_ALERT event;
    - read less than 70 s after it does not escalate;
    - read 70 s or more after it leaves [guard_escalated] true and emits
      ALERT_ESCALATED only if the flag was false;
    and over any run of no-face frames ALERT_ESCALATED is emitted once when
    the flag ends up set and never otherwise: after the frame that
    escalates, no later frame of the absence emits it again. *)
Theorem guard_timeline env w :
  guard_mode (self w) = true ->
  (no_face_timeout_seconds (self w) == 10)%Q ->
  (escalation_seconds (self w) == 60)%Q ->
  monotone_clock env ->
  let ssf := seconds_since_face env w in
  let w' := process_frame env None w in
  ((ssf < 10)%Q ->
     screen w' = screen w
     /\ alert_active (self w') = false
     /\ guard_escalated (self w') = false
     /\ count_event "NO_FACE_ALERT" (calls w') = count_event "NO_FACE_ALERT" (calls w)
     /\ count_event "ALERT_ESCALATED" (calls w') = count_event "ALERT_ESCALATED" (calls w)
     /\ count_play (calls w') = count_play (calls w))
  /\ ((10 <= ssf)%Q ->
     screen w' = screen w ++ [no_face_label]
     /\ alert_active (self w') = true
     /\ count_event "NO_FACE_ALERT" (calls w')
        = S (count_event "NO_FACE_ALERT" (calls w)))
  /\ ((10 <= ssf)%Q -> (ssf < 70)%Q ->
     guard_escalated (self w') = guard_escalated (self w)
     /\ count_event "ALERT_ESCALATED" (calls w')
        = count_event "ALERT_ESCALATED" (calls w))
  /\ ((70 <= ssf)%Q ->
     guard_escalated (self w') = true
     /\ count_event "ALERT_ESCALATED" (calls w')
        = (count_event "ALERT_ESCALATED" (calls w)
           + (if guard_escalated (self w) then 0 else 1))%nat)
  /\ (guard_escalated (self w) = false -> forall n,
     let wn := process_frames env (repeat None n) w in
     count_event "ALERT_ESCALATED" (calls wn)
     = (count_event "ALERT_ESCALATED" (calls w)
        + Nat.b2n (guard_escalated (self wn)))%nat)
  /\ ((70 <= ssf)%Q -> guard_escalated (self w) = false -> forall n,
     let wn := process_frames env (repeat None (S n)) w in
     guard_escalated (self wn) = true
     /\ count_event "ALERT_ESCALATED" (calls wn)
        = S (count_event "ALERT_ESCALATED" (calls w))).
Proof.
  intros Hg HT HE Hmono. cbv zeta.
  assert (HE0 : (0 <= escalation_seconds (self w))%Q) by (rewrite HE; discriminate).
  assert (H70 : (no_face_timeout_seconds (self w) + escalation_seconds (self w) == 70)%Q)
    by (rewrite HT, HE; reflexivity).
  split; [|split; [|split; [|split; [|split]]]].
  - intros Hlt. apply (no_face_frame_quiet env w Hg). rewrite HT. exact Hlt.
  - intros Hle. apply (no_face_frame_alert env w Hg). rewrite HT. exact Hle.
  - intros Hle Hlt. apply (no_face_frame_not_escalated env w Hg).
    + rewrite H70. exact Hlt.
    + rewrite HT. exact Hle.
  - intros Hle. apply (no_face_frame_escalated env w Hg).
    + rewrite HT. eapply Qle_trans; [|exact Hle]. discriminate.
    + rewrite H70. exact Hle.
  - intros Hge n.
    destruct (no_face_frames_run env n w Hg HE0 Hmono) as [_ Hc].
    + intros G. congruence.
    + cbv zeta in *. rewrite Hge in Hc. cbn in Hc. lia.
  - intros Hle Hge n. cbn [repeat process_frames].
    assert (Ha : (no_face_timeout_seconds (self w) <= seconds_since_face env w)%Q).
    { rewrite HT. eapply Qle_trans; [|exact Hle]. discriminate. }
    assert (Hh : (no_face_timeout_seconds (self w) + escalation_seconds (self w)
                  <= seconds_since_face env w)%Q) by (rewrite H70; exact Hle).
    destruct (no_face_frame_escalated env w Hg Ha Hh) as [Hge1 Hc1].
    destruct (no_face_frame_step env w Hg HE0 Hmono) as (HJ1 & _ & _).
    { intros G. congruence. }
    destruct (handle_no_face_config env w) as (Hcfg & _).
    destruct (config_eq _ _ Hcfg)
      as (_ & _ & _ & _ & _ & _ & Hg' & _ & _ & _ & _ & Hs).
    cbn [process_frame] in *.
    destruct (no_face_frames_run env n (_handle_no_face env w)) as [Hkeep Hc];
      [congruence | rewrite Hs; exact HE0 | exact Hmono | exact HJ1 |].
    cbv zeta in *. rewrite Hge in Hc1. specialize (Hkeep Hge1).
    rewrite Hkeep, Hge1 in Hc. split; [exact Hkeep | cbn in Hc; lia].
Qed.

Lemma env_jump_monotone : monotone_clock env_jump.
Proof.
  intros i j Hij. destruct i, j; cbn; try lia; unfold Qle; cbn; lia.
Qed.

(** The detector built at 1000 s sees no face at 1070 s: that frame
    escalates, and however many no-face frames follow, ALERT_ESCALATED was
    emitted once. *)
Lemma guard_timeline_witness :
  guard_mode (self w_guard) = true
  /\ (70 <= seconds_since_face env_jump w_guard)%Q
  /\ forall n,
       guard_escalated (self (process_frames env_jump (repeat None (S n)) w_guard)) = true
       /\ count_event "ALERT_ESCALATED"
            (calls (process_frames env_jump (repeat None (S n)) w_guard)) = 1%nat.
Proof.
  split; [reflexivity|]. split; [vm_compute; discriminate|].
  pose proof (guard_timeline env_jump w_guard eq_refl
                ltac:(reflexivity) ltac:(reflexivity) env_jump_monotone) as H.
  cbv zeta in H. destruct H as (_ & _ & _ & _ & _ & H).
  intros n. apply H; [vm_compute; discriminate | reflexivity].
Defined.

(** ** The flag [guard_alert_active] *)

Lemma process_frames_snoc env frames frame w :
  process_frames env (frames ++ [frame]) w
  = process_frame env frame (process_frames env frames w).
Proof.
  revert w. induction frames as [|f frames IH]; intros w; cbn; [reflexivity|].
  apply IH.
Qed.

(** No frame assigns [True] to the flag. *)
Lemma process_frame_guard_alert_active env frame w :
  guard_alert_active (self (process_frame env frame w)) = true ->
  guard_alert_active (self w) = true.
Proof.
  destruct frame as [e|].
  - destruct (Qltb e (EAR_THRESH (self w))) eqn:He.
    + rewrite (process_frame_closed_self env e w He).
      destruct (fatigue_alert_condition _); exact (fun H => H).
    + rewrite (process_frame_open_self env e w He). exact (fun H => H).
  - cbn [process_frame]. destruct (guard_mode (self w)) eqn:Hg.
    + destruct (handle_no_face_cases env w Hg) as [Hq | [[Ha Hn] | [Ha Hn]]].
      * rewrite (handle_no_face_quiet_self env w Hg Hq). discriminate.
      * rewrite (handle_no_face_alert_self env w Hg Ha Hn). exact (fun H => H).
      * destruct (handle_no_face_escalated env w Hg Ha Hn) as [_ Hs].
        rewrite Hs. exact (fun H => H).
    + rewrite (handle_no_face_off env w Hg). exact (fun H => H).
Qed.

(** C10. [guard_alert_active] is false in the detector the constructor
    builds and no frame assigns it true, so it is false after any run of
    frames; the test [alert_active or guard_alert_active] of the clearing
    branch then has the value of [alert_active], and a no-face frame read
    before the timeout emits ALERT_CLEARED exactly when the audio alert is
    active. *)
Theorem guard_alert_active_never_set env guard headless_ fullscreen_ path fs frames :
  let w := process_frames env frames (__init__ env guard headless_ fullscreen_ path fs) in
  guard_alert_active (self w) = false
  /\ (forall frame w0,
        guard_alert_active (self (process_frame env frame w0)) = true ->
        guard_alert_active (self w0) = true)
  /\ alert_active (self w) || guard_alert_active (self w) = alert_active (self w)
  /\ (guard_mode (self w) = true ->
      (seconds_since_face env w < no_face_timeout_seconds (self w))%Q ->
      calls (process_frame env None w)
      = calls w ++ (if alert_active (self w)
                    then [CallLogEvent "ALERT_CLEARED"; CallStopAudio] else [])).
Proof.
  cbv zeta.
  assert (Hinv : guard_alert_active
             (self (process_frames env frames
                      (__init__ env guard headless_ fullscreen_ path fs))) = false).
  { induction frames as [|frame frames IH] using rev_ind; [reflexivity|].
    rewrite process_frames_snoc.
    destruct (guard_alert_active (self (process_frame env frame _))) eqn:G;
      [|reflexivity].
    apply process_frame_guard_alert_active in G. congruence. }
  split; [exact Hinv|]. split; [apply process_frame_guard_alert_active|].
  rewrite Hinv, orb_false_r. split; [reflexivity|].
  intros Hg Hq. apply Qgeb_false in Hq. cbn [process_frame].
  rewrite (handle_no_face_quiet_calls env _ Hg Hq), Hinv, orb_false_r.
  destruct (alert_active _); reflexivity.
Qed.

(** The detector built at 1000 s sees no face at 1070 s, then a face with
    closed eyes, which leaves the audio alert on: the flag is false, and the
    next no-face frame clears the alert on [alert_active] alone. *)
Lemma guard_alert_active_never_set_witness :
  let w := process_frames env_jump [None; Some (1 # 5)%Q] w_guard in
  guard_alert_active (self w) = false
  /\ alert_active (self w) = true
  /\ calls (process_frame env_jump None w)
     = calls w ++ [CallLogEvent "ALERT_CLEARED"; CallStopAudio].
Proof.
  cbv zeta.
  destruct (guard_alert_active_never_set env_jump true true false
              (Some "guard.csv"%string) ∅ [None; Some (1 # 5)%Q])
    as (Hflag & _ & _ & Hclear).
  split; [exact Hflag|]. split; [reflexivity|].
  unfold w_guard.
  rewrite Hclear; [reflexivity | reflexivity | vm_compute; reflexivity].
Defined.

(** ** Face frames and the audio alert *)

Lemma fatigue_alert_condition_closed env e w :
  Qltb e (EAR_THRESH (self w)) = true ->
  fatigue_alert_condition (self (process_frame env (Some e) w))
  = fatigue_alert_condition (scorer_closed (reading env w) (self w)).
Proof.
  intros He. rewrite (process_frame_closed_self env e w He).
  destruct (fatigue_alert_condition (scorer_closed _ _)) eqn:Hc;
    [|exact Hc].
  exact Hc.
Qed.

(** C2, as stated, fails: after a guard alert, a face frame with closed eyes
    (EAR 0.2 < 0.25) has a false alert condition (1 frame, score 2), yet the
    audio alert stays active and no stop is requested. *)
Lemma closed_eyes_keep_alert :
  let w' := process_frame env_jump (Some (1 # 5)%Q) w_alerting in
  alert_active (self w_alerting) = true
  /\ fatigue_alert_condition (self w') = false
  /\ alert_active (self w') = true
  /\ calls w' = calls w_alerting.
Proof.
  cbv zeta.
  split; [|split; [|split]]; vm_compute; reflexivity.
Qed.

(** C2, amended: on every face frame whose EAR is not below the threshold
    the controller is driven with [active=False], so a previously active
    audio alert takes its falling edge on that frame (marked inactive, stop
    requested once); on a face frame whose EAR is below the threshold and
    whose alert condition is false the controller is not driven, the audio
    alert stays as it was and nothing is requested. *)
Theorem face_frame_audio env e w :
  let w' := process_frame env (Some e) w in
  ((EAR_THRESH (self w) <= e)%Q ->
     alert_active (self w') = false
     /\ calls w' = calls w ++ (if alert_active (self w) then [CallStopAudio] else []))
  /\ ((e < EAR_THRESH (self w))%Q ->
      fatigue_alert_condition (self w') = false ->
      alert_active (self w') = alert_active (self w)
      /\ calls w' = calls w).
Proof.
  cbv zeta. split.
  - intros Hopen. apply Qltb_false in Hopen.
    rewrite (process_frame_open_self env e w Hopen).
    rewrite (process_frame_open_calls env e w Hopen).
    split; reflexivity.
  - intros Hclosed Hcond. apply Qltb_true in Hclosed.
    rewrite (fatigue_alert_condition_closed env e w Hclosed) in Hcond.
    rewrite (process_frame_closed_self env e w Hclosed).
    rewrite (process_frame_closed_calls env e w Hclosed).
    rewrite Hcond, app_nil_r. split; reflexivity.
Qed.

(** After the guard alert, a face with open eyes (EAR 0.3) takes the
    falling edge. *)
Lemma face_frame_audio_witness :
  let w' := process_frame env_jump (Some (3 # 10)%Q) w_alerting in
  alert_active (self w') = false
  /\ calls w' = calls w_alerting ++ [CallStopAudio].
Proof.
  cbv zeta.
  destruct (face_frame_audio env_jump (3 # 10)%Q w_alerting) as [Hopen _].
  destruct Hopen as [Hoff Hcalls]; [vm_compute; discriminate|].
  split; [exact Hoff|]. rewrite Hcalls. vm_compute. reflexivity.
Defined.

(** ** Clearing the guard alert *)

Section Clearing.

Variable env : Env.

(** A face frame leaves the escalation flag alone and emits no
    ALERT_CLEARED. *)
Lemma face_frame_keeps_escalated e w :
  let w' := process_frame env (Some e) w in
  guard_escalated (self w') = guard_escalated (self w)
  /\ count_event "ALERT_CLEARED" (calls w') = count_event "ALERT_CLEARED" (calls w).
Proof.
  cbv zeta. destruct (Qltb e (EAR_THRESH (self w))) eqn:He.
  - rewrite (process_frame_closed_self env e w He).
    rewrite (process_frame_closed_calls env e w He).
    destruct (fatigue_alert_condition _).
    + split; [reflexivity|].
      rewrite !count_event_app, count_event_beep by reflexivity. cbn. lia.
    + rewrite app_nil_r. split; reflexivity.
  - rewrite (process_frame_open_self env e w He).
    rewrite (process_frame_open_calls env e w He).
    split; [reflexivity|].
    rewrite count_event_app, count_event_beep by reflexivity. lia.
Qed.

(** Between two ALERT_CLEARED events the alert must have been raised again:
    the sum of events emitted and alert still active never outgrows the
    alerts reported. *)
Lemma clear_step frame w :
  guard_alert_active (self w) = false ->
  let w' := process_frame env frame w in
  guard_alert_active (self w') = false
  /\ (count_event "ALERT_CLEARED" (calls w') + Nat.b2n (alert_active (self w'))
      + count_raised (calls w)
      <= count_event "ALERT_CLEARED" (calls w) + Nat.b2n (alert_active (self w))
         + count_raised (calls w'))%nat.
Proof.
  intros Hflag. cbv zeta. split.
  { destruct (guard_alert_active (self (process_frame env frame w))) eqn:G;
      [|reflexivity].
    apply process_frame_guard_alert_active in G. congruence. }
  unfold count_raised. destruct frame as [e|].
  - destruct (Qltb e (EAR_THRESH (self w))) eqn:He.
    + rewrite (process_frame_closed_self env e w He).
      rewrite (process_frame_closed_calls env e w He).
      destruct (fatigue_alert_condition _).
      * rewrite !count_event_app, !count_event_beep by reflexivity.
        destruct (alert_active (self w)); cbn; lia.
      * rewrite app_nil_r. cbn. lia.
    + rewrite (process_frame_open_self env e w He).
      rewrite (process_frame_open_calls env e w He).
      rewrite !count_event_app, !count_event_beep by reflexivity.
      destruct (alert_active (self w)); cbn; lia.
  - cbn [process_frame]. destruct (guard_mode (self w)) eqn:Hg.
    + destruct (handle_no_face_cases env w Hg) as [Hq | [[Ha Hn] | [Ha Hn]]].
      * rewrite (handle_no_face_quiet_self env w Hg Hq).
        rewrite (handle_no_face_quiet_calls env w Hg Hq).
        rewrite Hflag, orb_false_r, !count_event_app.
        destruct (alert_active (self w)); cbn; lia.
      * rewrite (handle_no_face_alert_self env w Hg Ha Hn).
        rewrite (handle_no_face_alert_calls env w Hg Ha Hn).
        rewrite !count_event_app, !count_event_beep by reflexivity.
        destruct (alert_active (self w)); cbn; lia.
      * destruct (handle_no_face_escalated env w Hg Ha Hn) as [Hc Hs].
        rewrite Hs, Hc.
        rewrite !count_event_app, !count_event_beep by reflexivity.
        destruct (alert_active (self w)), (guard_escalated (self w)); cbn; lia.
    + rewrite (handle_no_face_off env w Hg). lia.
Qed.

Lemma clear_run frames : forall w,
  guard_alert_active (self w) = false ->
  let w' := process_frames env frames w in
  (count_event "ALERT_CLEARED" (calls w') + Nat.b2n (alert_active (self w'))
   + count_raised (calls w)
   <= count_event "ALERT_CLEARED" (calls w) + Nat.b2n (alert_active (self w))
      + count_raised (calls w'))%nat.
Proof.
  induction frames as [|frame frames IH]; intros w Hflag; cbv zeta.
  - cbn. lia.
  - cbn [process_frames].
    destruct (clear_step frame w Hflag) as [Hflag' Hstep].
    specialize (IH _ Hflag'). cbv zeta in *. lia.
Qed.

End Clearing.

(** Whatever the state, an open-eyed face frame followed by a no-face frame
    read before the timeout emits no ALERT_CLEARED, although the second
    frame resets [guard_escalated]: the face frame has switched
    [alert_active] off, and [guard_alert_active], the other flag the no-face
    branch tests, is never set. *)
Lemma cleared_event_lost env e w :
  guard_mode (self w) = true ->
  guard_alert_active (self w) = false ->
  Qltb e (EAR_THRESH (self w)) = false ->
  let w1 := process_frame env (Some e) w in
  (seconds_since_face env w1 < no_face_timeout_seconds (self w1))%Q ->
  let w2 := process_frame env None w1 in
  guard_escalated (self w2) = false
  /\ count_event "ALERT_CLEARED" (calls w2) = count_event "ALERT_CLEARED" (calls w).
Proof.
  intros Hg Hflag He. cbv zeta. intros Hq.
  pose proof (process_frame_open_self env e w He) as Hs1.
  pose proof (process_frame_open_calls env e w He) as Hc1.
  set (w1 := process_frame env (Some e) w) in *.
  assert (Hg1 : guard_mode (self w1) = true) by (rewrite Hs1; exact Hg).
  assert (Ha1 : alert_active (self w1) = false) by (rewrite Hs1; reflexivity).
  assert (Hf1 : guard_alert_active (self w1) = false)
    by (rewrite Hs1; exact Hflag).
  apply Qgeb_false in Hq. cbn [process_frame].
  rewrite (handle_no_face_quiet_self env w1 Hg1 Hq).
  rewrite (handle_no_face_quiet_calls env w1 Hg1 Hq).
  rewrite Ha1, Hf1, Hc1. cbn [orb]. rewrite !app_nil_r.
  split; [reflexivity|].
  rewrite count_event_app, count_event_beep by reflexivity. lia.
Qed.

(** C1. The code misses the claim at this input. A guard-mode detector is
    built at 1000 s; a no-face frame at 1070 s raises the guard alert and
    escalates it (one NO_FACE_ALERT); then a face with open eyes (EAR 0.3)
    is detected again, and then a no-face frame is read within the timeout.
    That last frame resets [guard_escalated], as the claim says, but the
    episode ends without any ALERT_CLEARED event: the face frame has
    switched [alert_active] off, and [guard_alert_active], which the
    no-face branch tests beside it, is still false because nothing sets it.
    With closed eyes (EAR 0.2) in place of the open ones the same run emits
    the event, once. *)
Theorem face_redetected_no_clear :
  let w1 := process_frame env_jump (Some (3 # 10)%Q) w_alerting in
  let w2 := process_frame env_jump None w1 in
  let w2' := process_frames env_jump [Some (1 # 5)%Q; None] w_alerting in
  (count_event "NO_FACE_ALERT" (calls w_alerting) = 1%nat
   /\ alert_active (self w_alerting) = true
   /\ guard_escalated (self w_alerting) = true
   /\ guard_alert_active (self w_alerting) = false)
  /\ (alert_active (self w1) = false
      /\ guard_escalated (self w1) = true
      /\ count_event "ALERT_CLEARED" (calls w1) = 0%nat)
  /\ (guard_escalated (self w2) = false
      /\ count_event "NO_FACE_ALERT" (calls w2) = 1%nat
      /\ count_event "ALERT_CLEARED" (calls w2) = 0%nat)
  /\ (guard_escalated (self w2') = false
      /\ count_event "ALERT_CLEARED" (calls w2') = 1%nat).
Proof.
  cbv zeta.
  split; [|split; [|split]].
  - split; [|split; [|split]]; vm_compute; reflexivity.
  - split; [|split]; vm_compute; reflexivity.
  - split; [|split]; vm_compute; reflexivity.
  - split; vm_compute; reflexivity.
Qed.

(** ** Tones while escalated *)

Lemma audio_calls_beep (b : bool) (c : Call) :
  is_audio c = true ->
  audio_calls (if b then [c] else []) = if b then [c] else [].
Proof.
  intros H. destruct b; [|reflexivity].
  unfold audio_calls. cbn. rewrite H. reflexivity.
Qed.

Lemma audio_calls_event (b : bool) (event : string) :
  audio_calls (if b then [] else [CallLogEvent event]) = [].
Proof. destruct b; reflexivity. Qed.

(** C3, as stated, fails: the guard alert escalated on the frame of 1070 s
    (beep at 1070 s); on the next no-face frame, 1.5 s later and still
    escalated, the normal beep is played and the escalation tone is not. *)
Lemma escalated_frame_plays_normal_beep :
  guard_escalated (self w_escalated) = true
  /\ (no_face_timeout_seconds (self w_escalated)
      + escalation_seconds (self w_escalated)
      <= seconds_since_face env_frames w_escalated)%Q
  /\ calls (process_frame env_frames None w_escalated)
     = calls w_escalated ++ [CallPlayBeep; CallLogEvent "NO_FACE_ALERT"].
Proof.
  split; [reflexivity|]. split; [vm_compute; discriminate|].
  vm_compute. reflexivity.
Qed.

(** C3, amended: on every no-face frame past the escalation window the
    controller first runs its normal cadence check and plays the normal beep
    when [beep_interval_seconds] have passed since the last beep of either
    kind; then the escalation tone is emitted when at least
    [max(0.5, beep_interval_seconds / 2)] seconds have passed since the last
    beep of either kind, the one just played included. No other tone is
    requested on the frame. *)
Theorem escalated_frame_tones env w :
  guard_mode (self w) = true ->
  (no_face_timeout_seconds (self w) <= seconds_since_face env w)%Q ->
  (no_face_timeout_seconds (self w) + escalation_seconds (self w)
   <= seconds_since_face env w)%Q ->
  let t1 := time_time env (S (ticks w)) in
  let t2 := escalation_reading env w in
  let beep := Qgeb (t1 - throttle (self w))%Q (beep_interval_seconds (self w)) in
  let last := if beep then t1 else throttle (self w) in
  let tone := Qgeb (t2 - last)%Q (Qmax (1 # 2) (beep_interval_seconds (self w) / 2))%Q in
  audio_calls (calls (process_frame env None w))
  = audio_calls (calls w)
    ++ (if beep then [CallPlayBeep] else [])
    ++ (if tone then [CallPlayEscalationBeep] else []).
Proof.
  intros Hg Ha He. apply Qgeb_true in Ha. apply Qgeb_true in He.
  cbv zeta. cbn [process_frame].
  destruct (handle_no_face_escalated env w Hg Ha He) as [Hc _].
  rewrite Hc, !audio_calls_app, !audio_calls_beep by reflexivity.
  rewrite audio_calls_event. cbn [audio_calls List.filter is_audio app].
  reflexivity.
Qed.

(** On the third frame, 0.6 s after the beep of the second, the normal beep
    is not due and the escalation tone is played. *)
Lemma escalated_frame_tones_witness :
  audio_calls (calls (process_frame env_frames None w_escalated2))
  = audio_calls (calls w_escalated2) ++ [CallPlayEscalationBeep].
Proof.
  rewrite (escalated_frame_tones env_frames w_escalated2);
    [vm_compute; reflexivity | reflexivity
    | vm_compute; discriminate | vm_compute; discriminate].
Defined.

(** ** The fatigue scorer *)

Section Scorer.

Variable env : Env.

(** What one frame does to the counter, the score and the configuration. *)
Lemma process_frame_closed_fields e w :
  (e < EAR_THRESH (self w))%Q ->
  let w' := process_frame env (Some e) w in
  config (self w') = config (self w)
  /\ counter (self w') = (counter (self w) + 1)%Z
  /\ fatigue_score (self w')
     = (Qmin 100 (fatigue_score (self w) + fatigue_increase_per_frame (self w)))%Q.
Proof.
  intros He. apply Qltb_true in He. cbv zeta.
  rewrite (process_frame_closed_self env e w He).
  destruct (fatigue_alert_condition _); repeat split; reflexivity.
Qed.

Lemma process_frame_open_fields e w :
  (EAR_THRESH (self w) <= e)%Q ->
  let w' := process_frame env (Some e) w in
  config (self w') = config (self w)
  /\ counter (self w') = 0%Z
  /\ fatigue_score (self w')
     = (Qmax 0 (fatigue_score (self w) - fatigue_decay_per_frame (self w)))%Q.
Proof.
  intros He. apply Qltb_false in He. cbv zeta.
  rewrite (process_frame_open_self env e w He). repeat split; reflexivity.
Qed.

Lemma process_frame_config frame w :
  config (self (process_frame env frame w)) = config (self w).
Proof.
  destruct frame as [e|].
  - destruct (Qlt_le_dec e (EAR_THRESH (self w))) as [He | He].
    + apply (process_frame_closed_fields e w He).
    + apply (process_frame_open_fields e w He).
  - apply handle_no_face_config.
Qed.

Lemma process_frames_config frames : forall w,
  config (self (process_frames env frames w)) = config (self w).
Proof.
  induction frames as [|frame frames IH]; intros w; [reflexivity|].
  cbn [process_frames]. rewrite IH. apply process_frame_config.
Qed.

(** The score stays within [0, 100]. *)
Lemma process_frame_score_bounds frame w :
  (0 <= fatigue_increase_per_frame (self w))%Q ->
  (0 <= fatigue_decay_per_frame (self w))%Q ->
  (0 <= fatigue_score (self w) <= 100)%Q ->
  (0 <= fatigue_score (self (process_frame env frame w)) <= 100)%Q.
Proof.
  intros Hinc Hdec [Hlo Hhi]. destruct frame as [e|].
  - destruct (Qlt_le_dec e (EAR_THRESH (self w))) as [He | He].
    + destruct (process_frame_closed_fields e w He) as (_ & _ & Hs).
      cbv zeta in Hs. rewrite Hs. split.
      * apply Q.min_glb; [discriminate|].
        rewrite <- (Qplus_0_r 0). apply Qplus_le_compat; assumption.
      * apply Q.le_min_l.
    + destruct (process_frame_open_fields e w He) as (_ & _ & Hs).
      cbv zeta in Hs. rewrite Hs. split.
      * apply Q.le_max_l.
      * apply Q.max_lub; [discriminate|].
        eapply Qle_trans; [|exact Hhi].
        rewrite <- (Qplus_0_r (fatigue_score (self w))) at 2.
        unfold Qminus. apply Qplus_le_r.
        apply (Qopp_le_compat 0). exact Hdec.
  - destruct (handle_no_face_config env w) as (_ & _ & _ & Hs).
    cbn [process_frame]. rewrite Hs. split; assumption.
Qed.

Lemma process_frames_score_bounds frames : forall w,
  (0 <= fatigue_increase_per_frame (self w))%Q ->
  (0 <= fatigue_decay_per_frame (self w))%Q ->
  (0 <= fatigue_score (self w) <= 100)%Q ->
  (0 <= fatigue_score (self (process_frames env frames w)) <= 100)%Q.
Proof.
  induction frames as [|frame frames IH]; intros w Hinc Hdec Hs; [exact Hs|].
  cbn [process_frames].
  pose proof (process_frame_config frame w) as Hc.
  destruct (config_eq _ _ Hc)
    as (_ & _ & _ & Hi & Hd & _ & _ & _ & _ & _ & _ & _).
  apply IH; [rewrite Hi; exact Hinc | rewrite Hd; exact Hdec|].
  apply process_frame_score_bounds; assumption.
Qed.

(** Clamping twice is clamping once. *)
Lemma Qmin_step (a b : Q) :
  (0 <= b)%Q -> (Qmin 100 (Qmin 100 a + b) == Qmin 100 (a + b))%Q.
Proof.
  intros Hb. destruct (Qlt_le_dec 100 a) as [Hbig | Hsmall].
  - rewrite (Q.min_l 100 a) by (apply Qlt_le_weak; exact Hbig).
    rewrite !Q.min_l; [reflexivity | |].
    + rewrite <- (Qplus_0_r 100). apply Qplus_le_compat;
        [apply Qlt_le_weak; exact Hbig | exact Hb].
    + rewrite <- (Qplus_0_r 100) at 1. apply Qplus_le_r. exact Hb.
  - rewrite (Q.min_r 100 a) by exact Hsmall. reflexivity.
Qed.

Lemma Qmax_step (a b : Q) :
  (0 <= b)%Q -> (Qmax 0 (Qmax 0 a - b) == Qmax 0 (a - b))%Q.
Proof.
  intros Hb. destruct (Qlt_le_dec a 0) as [Hneg | Hpos].
  - rewrite (Q.max_l 0 a) by (apply Qlt_le_weak; exact Hneg).
    assert (Hb' : (0 - b <= 0)%Q).
    { rewrite <- (Qplus_0_r 0) at 2. unfold Qminus. apply Qplus_le_r.
      apply (Qopp_le_compat 0). exact Hb. }
    rewrite !Q.max_l; [reflexivity | | exact Hb'].
    eapply Qle_trans; [|exact Hb'].
    unfold Qminus. apply Qplus_le_l. apply Qlt_le_weak. exact Hneg.
  - rewrite (Q.max_r 0 a) by exact Hpos. reflexivity.
Qed.

(** An unbroken run of closed-eye frames: the counter counts them and the
    score is the clamped sum. *)
Lemma closed_run ears : forall w,
  Forall (fun e => (e < EAR_THRESH (self w))%Q) ears ->
  (0 <= fatigue_increase_per_frame (self w))%Q ->
  (fatigue_score (self w) <= 100)%Q ->
  let w' := process_frames env (map Some ears) w in
  counter (self w') = (counter (self w) + Z.of_nat (length ears))%Z
  /\ (fatigue_score (self w')
      == Qmin 100 (fatigue_score (self w)
                   + inject_Z (Z.of_nat (length ears))
                     * fatigue_increase_per_frame (self w)))%Q.
Proof.
  induction ears as [|e ears IH]; intros w Hclosed Hinc Hhi; cbv zeta.
  - cbn [map process_frames length Z.of_nat]. split; [lia|].
    rewrite Qmult_0_l, Qplus_0_r. symmetry. apply Q.min_r. exact Hhi.
  - inversion Hclosed as [|e' ears' He Hrest]; subst.
    cbn [map process_frames].
    destruct (process_frame_closed_fields e w He) as (Hc & Hn & Hs).
    cbv zeta in *.
    destruct (config_eq _ _ Hc)
      as (Hthr & _ & _ & Hi & _ & _ & _ & _ & _ & _ & _ & _).
    destruct (IH (process_frame env (Some e) w)) as [Hn' Hs'].
    { rewrite Hthr. exact Hrest. }
    { rewrite Hi. exact Hinc. }
    { rewrite Hs. apply Q.le_min_l. }
    split.
    + rewrite Hn', Hn. cbn [length]. lia.
    + rewrite Hs', Hs, Hi. cbn [length].
      set (s := fatigue_score (self w)).
      set (i := fatigue_increase_per_frame (self w)) in *.
      set (n := inject_Z (Z.of_nat (length ears))).
      assert (Hn0 : (0 <= n * i)%Q).
      { apply Qmult_le_0_compat; [|exact Hinc].
        unfold n. change 0%Q with (inject_Z 0). rewrite <- Zle_Qle. lia. }
      assert (HS : (inject_Z (Z.of_nat (S (length ears))) == n + 1)%Q).
      { unfold n. rewrite Nat2Z.inj_succ, <- Z.add_1_r, inject_Z_plus.
        reflexivity. }
      rewrite HS, (Qmin_step (s + i) (n * i) Hn0).
      assert (E : (s + i + n * i == s + (n + 1) * i)%Q) by ring.
      rewrite E. reflexivity.
Qed.

(** An unbroken run of open-eye frames: the score is the clamped
    difference. *)
Lemma open_run ears : forall w,
  Forall (fun e => (EAR_THRESH (self w) <= e)%Q) ears ->
  (0 <= fatigue_decay_per_frame (self w))%Q ->
  (0 <= fatigue_score (self w))%Q ->
  let w' := process_frames env (map Some ears) w in
  (fatigue_score (self w')
   == Qmax 0 (fatigue_score (self w)
              - inject_Z (Z.of_nat (length ears))
                * fatigue_decay_per_frame (self w)))%Q.
Proof.
  induction ears as [|e ears IH]; intros w Hopen Hdec Hlo; cbv zeta.
  - cbn [map process_frames length Z.of_nat].
    rewrite Qmult_0_l. unfold Qminus. rewrite Qplus_0_r.
    symmetry. apply Q.max_r. exact Hlo.
  - inversion Hopen as [|e' ears' He Hrest]; subst.
    cbn [map process_frames].
    destruct (process_frame_open_fields e w He) as (Hc & _ & Hs).
    cbv zeta in *.
    destruct (config_eq _ _ Hc)
      as (Hthr & _ & _ & _ & Hd & _ & _ & _ & _ & _ & _ & _).
    rewrite (IH (process_frame env (Some e) w));
      [| rewrite Hthr; exact Hrest | rewrite Hd; exact Hdec
       | rewrite Hs; apply Q.le_max_l].
    rewrite Hs, Hd. cbn [length].
    set (s := fatigue_score (self w)).
    set (d := fatigue_decay_per_frame (self w)) in *.
    set (n := inject_Z (Z.of_nat (length ears))).
    assert (Hn : (0 <= n)%Q).
    { unfold n. change 0%Q with (inject_Z 0). rewrite <- Zle_Qle. lia. }
    assert (Hn0 : (0 <= n * d)%Q) by (apply Qmult_le_0_compat; assumption).
    assert (HS : (inject_Z (Z.of_nat (S (length ears))) == n + 1)%Q).
    { unfold n. rewrite Nat2Z.inj_succ, <- Z.add_1_r, inject_Z_plus.
      reflexivity. }
    rewrite HS, (Qmax_step (s - d) (n * d) Hn0).
    assert (E : (s - d - n * d == s - (n + 1) * d)%Q) by ring.
    rewrite E. reflexivity.
Qed.

(** Enough steps of a positive size cover 100. *)
Lemma steps_cover (step : Q) (n : nat) :
  (0 < step)%Q ->
  (Z.to_nat (Qceiling (100 / step)) <= n)%nat ->
  (100 <= inject_Z (Z.of_nat n) * step)%Q.
Proof.
  intros Hpos Hn.
  assert (Hne : ~ (step == 0)%Q).
  { intros E. rewrite E in Hpos. discriminate. }
  assert (E : (100 == 100 / step * step)%Q) by (field; exact Hne).
  rewrite E at 1. apply Qmult_le_compat_r; [|apply Qlt_le_weak; exact Hpos].
  eapply Qle_trans; [apply Qle_ceiling|].
  rewrite <- Zle_Qle. lia.
Qed.

End Scorer.

(** C6. With positive increase and decay, as the constructor sets them, a
    score that is within [0, 100] stays within [0, 100] after every frame;
    every unbroken run of at least ceil(100 / increase) closed-eye frames
    leaves it at exactly 100, however long the run goes on, and every
    unbroken run of at least ceil(100 / decay) open-eye frames leaves it at
    exactly 0. *)
Theorem fatigue_score_saturates env w :
  (0 < fatigue_increase_per_frame (self w))%Q ->
  (0 < fatigue_decay_per_frame (self w))%Q ->
  (0 <= fatigue_score (self w) <= 100)%Q ->
  (forall frames,
     (0 <= fatigue_score (self (process_frames env frames w)) <= 100)%Q)
  /\ (forall ears,
        (Z.to_nat (Qceiling (100 / fatigue_increase_per_frame (self w)))
         <= length ears)%nat ->
        Forall (fun e => (e < EAR_THRESH (self w))%Q) ears ->
        (fatigue_score (self (process_frames env (map Some ears) w)) == 100)%Q)
  /\ (forall ears,
        (Z.to_nat (Qceiling (100 / fatigue_decay_per_frame (self w)))
         <= length ears)%nat ->
        Forall (fun e => (EAR_THRESH (self w) <= e)%Q) ears ->
        (fatigue_score (self (process_frames env (map Some ears) w)) == 0)%Q).
Proof.
  intros Hinc Hdec [Hlo Hhi].
  assert (Hinc0 := Qlt_le_weak _ _ Hinc). assert (Hdec0 := Qlt_le_weak _ _ Hdec).
  split; [|split].
  - intros frames. apply process_frames_score_bounds; [assumption..|split; assumption].
  - intros ears Hlen Hclosed.
    destruct (closed_run env ears w Hclosed Hinc0 Hhi) as [_ Hs]. cbv zeta in Hs.
    rewrite Hs. apply Q.min_l.
    rewrite <- (Qplus_0_l 100). apply Qplus_le_compat; [exact Hlo|].
    apply steps_cover; assumption.
  - intros ears Hlen Hopen.
    rewrite (open_run env ears w Hopen Hdec0 Hlo). apply Q.max_l.
    pose proof (steps_cover _ _ Hdec Hlen) as Hcover.
    apply (Qplus_le_l _ _ (inject_Z (Z.of_nat (length ears))
                           * fatigue_decay_per_frame (self w))).
    rewrite Qplus_0_l.
    assert (E : (fatigue_score (self w)
                 - inject_Z (Z.of_nat (length ears)) * fatigue_decay_per_frame (self w)
                 + inject_Z (Z.of_nat (length ears)) * fatigue_decay_per_frame (self w)
                 == fatigue_score (self w))%Q) by ring.
    rewrite E. eapply Qle_trans; [exact Hhi | exact Hcover].
Qed.

(** The detector as built (increase 2, decay 1, score 0): the score stays
    within bounds, 50 closed-eye frames (EAR 0.2) leave it at 100, and 100
    open-eye frames (EAR 0.3) behind them would leave it at 0. *)
Lemma fatigue_score_saturates_witness :
  (forall frames,
     (0 <= fatigue_score (self (process_frames env_epoch frames w_idle)) <= 100)%Q)
  /\ (fatigue_score
        (self (process_frames env_epoch (map Some (repeat (1 # 5)%Q 50)) w_idle))
      == 100)%Q
  /\ (fatigue_score
        (self (process_frames env_epoch (map Some (repeat (3 # 10)%Q 100)) w_idle))
      == 0)%Q.
Proof.
  destruct (fatigue_score_saturates env_epoch w_idle) as (Hb & Hup & Hdown);
    [reflexivity | reflexivity | split; discriminate |].
  split; [exact Hb|]. split.
  - apply Hup; [vm_compute; lia|].
    apply List.Forall_forall. intros x Hx. apply repeat_spec in Hx. subst x.
    reflexivity.
  - apply Hdown; [vm_compute; lia|].
    apply List.Forall_forall. intros x Hx. apply repeat_spec in Hx. subst x.
    discriminate.
Defined.

(** ** The fatigue alert *)

Section FatigueAlert.

Variable env : Env.

Lemma process_frames_closed_counter ears : forall w,
  Forall (fun e => (e < EAR_THRESH (self w))%Q) ears ->
  counter (self (process_frames env (map Some ears) w))
  = (counter (self w) + Z.of_nat (length ears))%Z.
Proof.
  induction ears as [|e ears IH]; intros w Hclosed.
  - cbn [map process_frames length Z.of_nat]. lia.
  - inversion Hclosed as [|e' ears' He Hrest]; subst.
    cbn [map process_frames].
    destruct (process_frame_closed_fields env e w He) as (Hc & Hn & _).
    cbv zeta in *. destruct (config_eq _ _ Hc) as (Hthr & _).
    rewrite IH by (rewrite Hthr; exact Hrest).
    rewrite Hn. cbn [length]. lia.
Qed.

(** A closed-eye frame whose updated state meets the condition raises the
    alert and reports it once. *)
Lemma closed_frame_alert e w :
  (e < EAR_THRESH (self w))%Q ->
  fatigue_alert_condition (scorer_closed (reading env w) (self w)) = true ->
  let w' := process_frame env (Some e) w in
  alert_active (self w') = true
  /\ count_event "FATIGUE_ALERT" (calls w')
     = S (count_event "FATIGUE_ALERT" (calls w)).
Proof.
  intros He Hcond. apply Qltb_true in He. cbv zeta.
  rewrite (process_frame_closed_self env e w He).
  rewrite (process_frame_closed_calls env e w He).
  rewrite Hcond. split; [reflexivity|].
  rewrite !count_event_app, count_event_beep by reflexivity. cbn. lia.
Qed.

(** A run of closed-eye frames that reaches neither threshold raises
    nothing. *)
Lemma closed_run_quiet ears : forall w,
  Forall (fun e => (e < EAR_THRESH (self w))%Q) ears ->
  (0 <= fatigue_increase_per_frame (self w))%Q ->
  (counter (self w) + Z.of_nat (length ears) < CLOSED_EYES_FRAME (self w))%Z ->
  (fatigue_score (self w)
   + inject_Z (Z.of_nat (length ears)) * fatigue_increase_per_frame (self w)
   < fatigue_alert_threshold (self w))%Q ->
  let w' := process_frames env (map Some ears) w in
  calls w' = calls w /\ alert_active (self w') = alert_active (self w).
Proof.
  induction ears as [|e ears IH]; intros w Hclosed Hinc Hcount Hscore; cbv zeta.
  - split; reflexivity.
  - inversion Hclosed as [|e' ears' He Hrest]; subst.
    cbn [map process_frames].
    destruct (process_frame_closed_fields env e w He) as (Hc & Hn & Hs).
    cbv zeta in *.
    destruct (config_eq _ _ Hc)
      as (Hthr & Hcl & _ & Hi & _ & Ht & _).
    set (s := fatigue_score (self w)) in *.
    set (i := fatigue_increase_per_frame (self w)) in *.
    set (n := inject_Z (Z.of_nat (length ears))).
    assert (Hn0 : (0 <= n)%Q).
    { unfold n. change 0%Q with (inject_Z 0). rewrite <- Zle_Qle. lia. }
    assert (HS : (inject_Z (Z.of_nat (length (e :: ears))) == n + 1)%Q).
    { unfold n. cbn [length].
      rewrite Nat2Z.inj_succ, <- Z.add_1_r, inject_Z_plus. reflexivity. }
    rewrite HS in Hscore.
    assert (Hstep : (Qmin 100 (s + i) + n * i < fatigue_alert_threshold (self w))%Q).
    { eapply Qle_lt_trans; [|exact Hscore].
      assert (E : (s + (n + 1) * i == s + i + n * i)%Q) by ring.
      rewrite E. apply Qplus_le_l. apply Q.le_min_r. }
    assert (Hcond : fatigue_alert_condition
                      (scorer_closed (reading env w) (self w)) = false).
    { unfold fatigue_alert_condition. apply orb_false_iff. split.
      - cbn [counter CLOSED_EYES_FRAME scorer_closed set_fatigue_score
             set_counter set_last_face_time].
        rewrite Z.geb_leb. apply Z.leb_gt. cbn [length] in Hcount. lia.
      - cbn [fatigue_score fatigue_alert_threshold scorer_closed
             set_fatigue_score set_counter set_last_face_time].
        apply Qgeb_false. fold s i.
        eapply Qle_lt_trans; [|exact Hstep].
        rewrite <- (Qplus_0_r (Qmin 100 (s + i))) at 1.
        apply Qplus_le_r. apply Qmult_le_0_compat; assumption. }
    destruct (IH (process_frame env (Some e) w)) as [Hcalls Hactive].
    { rewrite Hthr. exact Hrest. }
    { rewrite Hi. exact Hinc. }
    { rewrite Hn, Hcl. cbn [length] in Hcount. lia. }
    { rewrite Hs, Hi, Ht. exact Hstep. }
    rewrite Hcalls, Hactive.
    apply Qltb_true in He.
    rewrite (process_frame_closed_self env e w He).
    rewrite (process_frame_closed_calls env e w He).
    rewrite Hcond, app_nil_r. split; reflexivity.
Qed.

End FatigueAlert.

(** C7. After any run of closed-eye face frames at least
    [CLOSED_EYES_FRAME] long, started with a counter that is not negative,
    the alert branch is taken on the last frame of the run by the frame
    count alone: nothing is assumed about the score, its increase or its
    threshold. *)
Theorem debounce_fires env w ears e :
  (0 <= counter (self w))%Z ->
  Forall (fun x => (x < EAR_THRESH (self w))%Q) (ears ++ [e]) ->
  (CLOSED_EYES_FRAME (self w) <= Z.of_nat (length (ears ++ [e])))%Z ->
  let w0 := process_frames env (map Some ears) w in
  let w' := process_frame env (Some e) w0 in
  process_frames env (map Some (ears ++ [e])) w = w'
  /\ (counter (self w') >=? CLOSED_EYES_FRAME (self w'))%Z = true
  /\ fatigue_alert_condition (self w') = true
  /\ alert_active (self w') = true
  /\ count_event "FATIGUE_ALERT" (calls w')
     = S (count_event "FATIGUE_ALERT" (calls w0)).
Proof.
  intros Hc0 Hclosed Hlen. cbv zeta.
  apply Forall_app in Hclosed. destruct Hclosed as [Hears He].
  inversion He as [|e' l' He' _]; subst.
  rewrite List.map_app. cbn [map]. rewrite process_frames_snoc.
  split; [reflexivity|].
  set (w0 := process_frames env (map Some ears) w).
  assert (Hcfg : config (self w0) = config (self w))
    by apply process_frames_config.
  destruct (config_eq _ _ Hcfg)
    as (Hthr & Hcl & _).
  assert (Hn0 : counter (self w0) = (counter (self w) + Z.of_nat (length ears))%Z)
    by (apply process_frames_closed_counter; exact Hears).
  assert (He0 : (e < EAR_THRESH (self w0))%Q) by (rewrite Hthr; exact He').
  destruct (process_frame_closed_fields env e w0 He0) as (Hc & Hn & _).
  cbv zeta in *. destruct (config_eq _ _ Hc) as (_ & Hcl' & _).
  assert (Hcount : (counter (self (process_frame env (Some e) w0))
                    >=? CLOSED_EYES_FRAME (self (process_frame env (Some e) w0)))%Z
                   = true).
  { apply Z.geb_le. rewrite Hn, Hcl', Hcl, Hn0.
    rewrite length_app in Hlen. cbn [length] in Hlen. lia. }
  assert (Hcond : fatigue_alert_condition (self (process_frame env (Some e) w0)) = true).
  { unfold fatigue_alert_condition. rewrite Hcount. reflexivity. }
  split; [exact Hcount|]. split; [exact Hcond|].
  apply closed_frame_alert; [exact He0|].
  rewrite <- (fatigue_alert_condition_closed env e w0)
    by (apply Qltb_true; exact He0).
  exact Hcond.
Qed.

(** The detector as built (debounce 20): 20 frames with EAR 0.2. *)
Lemma debounce_fires_witness :
  let w0 := process_frames env_epoch (map Some (repeat (1 # 5)%Q 19)) w_idle in
  let w' := process_frame env_epoch (Some (1 # 5)%Q) w0 in
  fatigue_alert_condition (self w') = true
  /\ alert_active (self w') = true
  /\ count_event "FATIGUE_ALERT" (calls w')
     = S (count_event "FATIGUE_ALERT" (calls w0)).
Proof.
  cbv zeta.
  destruct (debounce_fires env_epoch w_idle (repeat (1 # 5)%Q 19) (1 # 5)%Q)
    as (_ & _ & Hcond & Hactive & Hevent).
  - vm_compute. discriminate.
  - apply List.Forall_forall. intros x Hx. apply in_app_or in Hx.
    destruct Hx as [Hx | [Hx | []]];
      [apply repeat_spec in Hx|]; subst x; reflexivity.
  - vm_compute. discriminate.
  - split; [exact Hcond|]. split; [exact Hactive | exact Hevent].
Defined.

(** C8. With an increase of 2 per frame, an alert threshold of 60 and a
    debounce of 40 frames, starting from score 0 and counter 0: 29
    closed-eye frames raise nothing, and the 30th brings the score to 60
    and takes the alert branch through the score test while the frame-count
    test (30 >= 40) is false. The decay of 1 plays no part in such a run. *)
Theorem thirty_closed_frames env w ears e :
  (fatigue_increase_per_frame (self w) == 2)%Q ->
  (fatigue_alert_threshold (self w) == 60)%Q ->
  CLOSED_EYES_FRAME (self w) = 40%Z ->
  (fatigue_score (self w) == 0)%Q ->
  counter (self w) = 0%Z ->
  length ears = 29%nat ->
  Forall (fun x => (x < EAR_THRESH (self w))%Q) (ears ++ [e]) ->
  let w29 := process_frames env (map Some ears) w in
  let w30 := process_frame env (Some e) w29 in
  process_frames env (map Some (ears ++ [e])) w = w30
  /\ calls w29 = calls w
  /\ alert_active (self w29) = alert_active (self w)
  /\ counter (self w30) = 30%Z
  /\ (fatigue_score (self w30) == 60)%Q
  /\ (counter (self w30) >=? CLOSED_EYES_FRAME (self w30))%Z = false
  /\ Qgeb (fatigue_score (self w30)) (fatigue_alert_threshold (self w30)) = true
  /\ alert_active (self w30) = true
  /\ count_event "FATIGUE_ALERT" (calls w30)
     = S (count_event "FATIGUE_ALERT" (calls w)).
Proof.
  intros Hinc Hthr Hdeb Hs Hc Hlen Hclosed. cbv zeta.
  apply Forall_app in Hclosed. destruct Hclosed as [Hears He].
  inversion He as [|e' l' He' _]; subst.
  rewrite List.map_app. cbn [map]. rewrite process_frames_snoc.
  split; [reflexivity|].
  assert (Hinc0 : (0 <= fatigue_increase_per_frame (self w))%Q)
    by (rewrite Hinc; discriminate).
  assert (Hhi : (fatigue_score (self w) <= 100)%Q)
    by (rewrite Hs; discriminate).
  destruct (closed_run env ears w Hears Hinc0 Hhi) as [Hn29 Hs29].
  destruct (closed_run_quiet env ears w Hears Hinc0) as [Hcalls Hactive].
  { rewrite Hc, Hdeb, Hlen. reflexivity. }
  { rewrite Hs, Hinc, Hthr, Hlen. reflexivity. }
  cbv zeta in *.
  set (w29 := process_frames env (map Some ears) w) in *.
  assert (Hcfg : config (self w29) = config (self w))
    by apply process_frames_config.
  destruct (config_eq _ _ Hcfg)
    as (Het & Hcl & _ & Hi & _ & Ht & _).
  assert (He29 : (e < EAR_THRESH (self w29))%Q) by (rewrite Het; exact He').
  destruct (process_frame_closed_fields env e w29 He29) as (Hc30 & Hn30 & Hs30).
  cbv zeta in *.
  destruct (config_eq _ _ Hc30)
    as (_ & Hcl30 & _ & _ & _ & Ht30 & _).
  assert (Hscore : (fatigue_score (self (process_frame env (Some e) w29)) == 60)%Q).
  { rewrite Hs30, Hs29, Hi, Hs, Hinc, Hlen. reflexivity. }
  assert (Hcount : counter (self (process_frame env (Some e) w29)) = 30%Z).
  { rewrite Hn30, Hn29, Hc, Hlen. reflexivity. }
  assert (Hbyscore : Qgeb (fatigue_score (self (process_frame env (Some e) w29)))
                       (fatigue_alert_threshold (self (process_frame env (Some e) w29)))
                     = true).
  { rewrite Hscore, Ht30, Ht, Hthr. reflexivity. }
  split; [exact Hcalls|]. split; [exact Hactive|]. split; [exact Hcount|].
  split; [exact Hscore|].
  split; [rewrite Hcount, Hcl30, Hcl, Hdeb; reflexivity|].
  split; [exact Hbyscore|].
  rewrite <- Hcalls. apply closed_frame_alert; [exact He29|].
  rewrite <- (fatigue_alert_condition_closed env e w29)
    by (apply Qltb_true; exact He29).
  unfold fatigue_alert_condition. rewrite Hbyscore. apply orb_true_r.
Qed.

(** The detector as built, with the debounce raised to 40 frames: 30 frames
    with EAR 0.2. *)
Lemma thirty_closed_frames_witness :
  let w30 := process_frames env_epoch
               (map Some (repeat (1 # 5)%Q 29 ++ [(1 # 5)%Q])) w_debounce40 in
  (fatigue_score (self w30) == 60)%Q
  /\ (counter (self w30) >=? CLOSED_EYES_FRAME (self w30))%Z = false
  /\ alert_active (self w30) = true
  /\ count_event "FATIGUE_ALERT" (calls w30) = 1%nat.
Proof.
  cbv zeta.
  destruct (thirty_closed_frames env_epoch w_debounce40
              (repeat (1 # 5)%Q 29) (1 # 5)%Q)
    as (Hrun & _ & _ & _ & Hscore & Hcount & _ & Hactive & Hevent);
    [reflexivity | reflexivity | reflexivity | reflexivity | reflexivity
    | reflexivity | |].
  - apply List.Forall_forall. intros x Hx. apply in_app_or in Hx.
    destruct Hx as [Hx | [Hx | []]];
      [apply repeat_spec in Hx|]; subst x; reflexivity.
  - rewrite Hrun. split; [exact Hscore|]. split; [exact Hcount|].
    split; [exact Hactive | exact Hevent].
Defined.

(** ** The event log *)

Section EventLog.

Variable env : Env.

Lemma string_app_cons (x : ascii) (a b : string) :
  (String x a ++ b = String x (a ++ b))%string.
Proof. reflexivity. Qed.

Lemma string_app_nil_l (a : string) : (EmptyString ++ a = a)%string.
Proof. reflexivity. Qed.

Lemma string_app_assoc (a b c : string) :
  ((a ++ b) ++ c = a ++ (b ++ c))%string.
Proof.
  induction a as [|x a IH]; [reflexivity|].
  rewrite !string_app_cons, IH. reflexivity.
Qed.

Lemma string_app_nil_r (a : string) : (a ++ EmptyString = a)%string.
Proof.
  induction a as [|x a IH]; [reflexivity|].
  rewrite string_app_cons, IH. reflexivity.
Qed.

Lemma writerows_app rows rows' :
  writerows (rows ++ rows') = (writerows rows ++ writerows rows')%string.
Proof.
  induction rows as [|row rows IH]; cbn [writerows app]; [reflexivity|].
  rewrite IH, string_app_assoc. reflexivity.
Qed.

(** One event on an enabled, writable log: the header if the file is not
    there, then the row. *)
Lemma log_event_disk event path w :
  log_path (self w) = Some path ->
  path <> EmptyString ->
  writable env path = true ->
  disk (_maybe_log_event env event w)
  = <[path := ((match disk w !! path with
                | Some text => text
                | None => writerow ["timestamp"; "event"]
                end) ++ writerow [time_strftime env (ticks w); event])%string]>
      (disk w).
Proof.
  intros Hpath Hne Hw. unfold _maybe_log_event.
  cbn [self add_call log_path]. rewrite Hpath.
  destruct path as [|c path]; [congruence|].
  cbn [tick add_call ticks disk]. rewrite Hw. cbn [disk set_disk].
  destruct (disk w !! String c path) as [text|] eqn:Hfile; cbn; reflexivity.
Qed.

Lemma log_events_file events : forall w path text,
  log_path (self w) = Some path ->
  path <> EmptyString ->
  writable env path = true ->
  disk w !! path = Some text ->
  disk (log_events env events w) !! path
  = Some (text ++ writerows (data_rows env (ticks w) events))%string.
Proof.
  induction events as [|event events IH]; intros w path text Hpath Hne Hw Hfile.
  - cbn. rewrite string_app_nil_r. exact Hfile.
  - cbn [log_events fold_left data_rows writerows].
    fold (log_events env events (_maybe_log_event env event w)).
    rewrite (IH _ path (text ++ writerow [time_strftime env (ticks w); event])%string).
    + rewrite log_event_ticks. unfold log_reads. rewrite Hpath.
      destruct path; [congruence|].
      rewrite Nat.add_1_r, string_app_assoc. reflexivity.
    + rewrite log_event_self. exact Hpath.
    + exact Hne.
    + exact Hw.
    + rewrite (log_event_disk event path w Hpath Hne Hw), Hfile.
      apply lookup_insert_eq.
Qed.

End EventLog.

(** ** Reading back what the writer wrote *)

Section RoundTrip.

Lemma parse_app (a b : string) : forall r,
  parse (a ++ b)%string r = parse b (parse a r).
Proof.
  induction a as [|c a IH]; intros r; [reflexivity|].
  rewrite string_app_cons. cbn [parse]. apply IH.
Qed.

Lemma special_false c :
  special c = false ->
  Ascii.eqb c COMMA = false /\ Ascii.eqb c DQUOTE = false
  /\ Ascii.eqb c CR = false /\ Ascii.eqb c LF = false.
Proof.
  unfold special. intros H.
  apply orb_false_iff in H. destruct H as [H Hlf].
  apply orb_false_iff in H. destruct H as [H Hcr].
  apply orb_false_iff in H. destruct H as [Hcomma Hquote].
  repeat split; assumption.
Qed.

Lemma string_app_snoc (a : string) (c : ascii) (b : string) :
  ((a ++ String c EmptyString) ++ b = a ++ String c b)%string.
Proof. rewrite string_app_assoc. reflexivity. Qed.

(** Characters of a field that needs no quotes, read inside a field. *)
Lemma parse_plain text : forall rows fs f,
  needs_quotes text = false ->
  parse text {| state := IN_FIELD; records := rows; fields := fs; field := f |}
  = {| state := IN_FIELD; records := rows; fields := fs;
       field := (f ++ text)%string |}.
Proof.
  induction text as [|c text IH]; intros rows fs f Hplain.
  - cbn [parse]. rewrite string_app_nil_r. reflexivity.
  - cbn [needs_quotes] in Hplain. apply orb_false_iff in Hplain.
    destruct Hplain as [Hc Hrest].
    destruct (special_false c Hc) as (Hcomma & Hquote & Hcr & Hlf).
    cbn [parse]. unfold parse_char. cbn [state].
    rewrite Hcr, Hlf, Hcomma. unfold add_char. cbn [state records fields field].
    rewrite (IH _ _ _ Hrest), string_app_snoc. reflexivity.
Qed.

(** The doubled text of a field, read inside quotes. *)
Lemma parse_quoted text : forall rows fs f,
  parse (double_quotes text)
    {| state := IN_QUOTED_FIELD; records := rows; fields := fs; field := f |}
  = {| state := IN_QUOTED_FIELD; records := rows; fields := fs;
       field := (f ++ text)%string |}.
Proof.
  induction text as [|c text IH]; intros rows fs f.
  - cbn [double_quotes parse]. rewrite string_app_nil_r. reflexivity.
  - cbn [double_quotes]. destruct (Ascii.eqb c DQUOTE) eqn:Hq.
    + cbn [parse]. unfold parse_char at 2. cbn [state]. rewrite Hq.
      unfold goto. cbn [state records fields field].
      unfold parse_char. cbn [state]. rewrite Hq.
      unfold add_char, goto. cbn [state records fields field].
      rewrite IH, string_app_snoc. reflexivity.
    + cbn [parse]. unfold parse_char. cbn [state]. rewrite Hq.
      unfold add_char. cbn [state records fields field].
      rewrite IH, string_app_snoc. reflexivity.
Qed.

(** A whole field as the writer renders it, read from the start of a
    field. *)
Lemma parse_field f rows fs st :
  st = START_FIELD \/ st = START_RECORD ->
  parse (csv_field f)
    {| state := st; records := rows; fields := fs; field := EmptyString |}
  = if needs_quotes f
    then {| state := QUOTE_IN_QUOTED_FIELD; records := rows; fields := fs;
            field := f |}
    else match f with
         | EmptyString =>
             {| state := st; records := rows; fields := fs; field := EmptyString |}
         | String _ _ =>
             {| state := IN_FIELD; records := rows; fields := fs; field := f |}
         end.
Proof.
  intros Hst. unfold csv_field. destruct (needs_quotes f) eqn:Hq.
  - cbn [parse].
    assert (Hopen : parse_char
              {| state := st; records := rows; fields := fs; field := EmptyString |}
              DQUOTE
            = {| state := IN_QUOTED_FIELD; records := rows; fields := fs;
                 field := EmptyString |})
      by (destruct Hst; subst st; reflexivity).
    rewrite Hopen, parse_app, parse_quoted, string_app_nil_l. reflexivity.
  - destruct f as [|c f]; [reflexivity|].
    cbn [needs_quotes] in Hq. apply orb_false_iff in Hq. destruct Hq as [Hc Hrest].
    destruct (special_false c Hc) as (Hcomma & Hquote & Hcr & Hlf).
    cbn [parse].
    assert (Hfirst : parse_char
              {| state := st; records := rows; fields := fs; field := EmptyString |} c
            = {| state := IN_FIELD; records := rows; fields := fs;
                 field := String c EmptyString |}).
    { destruct Hst; subst st; unfold parse_char, start_record, start_field;
        cbn [state]; rewrite Hcr, Hlf, Hquote, Hcomma; reflexivity. }
    rewrite Hfirst, (parse_plain f _ _ _ Hrest). reflexivity.
Qed.

(** ... followed by a comma: the field is saved. *)
Lemma parse_field_comma f rest rows fs st :
  st = START_FIELD \/ st = START_RECORD ->
  parse (csv_field f ++ String COMMA rest)%string
    {| state := st; records := rows; fields := fs; field := EmptyString |}
  = parse rest
      {| state := START_FIELD; records := rows; fields := fs ++ [f];
         field := EmptyString |}.
Proof.
  intros Hst. rewrite parse_app, (parse_field f rows fs st Hst).
  destruct (needs_quotes f); [reflexivity|].
  destruct f as [|c f]; [destruct Hst; subst st|]; reflexivity.
Qed.

(** ... followed by the line end: the record is saved. A record cannot
    start with an empty unquoted field at its very end: the writer quotes
    the one empty field of such a row. *)
Lemma parse_field_end f rest rows fs st :
  st = START_FIELD \/ (st = START_RECORD /\ csv_field f <> EmptyString) ->
  parse (csv_field f ++ lineterminator ++ rest)%string
    {| state := st; records := rows; fields := fs; field := EmptyString |}
  = parse rest (reader_start (rows ++ [fs ++ [f]])).
Proof.
  intros Hst. rewrite parse_app, (parse_field f rows fs st) by tauto.
  unfold csv_field in Hst. destruct (needs_quotes f); [reflexivity|].
  destruct f as [|c f]; [|reflexivity].
  destruct Hst as [-> | [_ Hne]]; [reflexivity | congruence].
Qed.

(** The fields of a row, then the line end. *)
Lemma parse_join_fields row : forall rest rows fs st,
  row <> [] ->
  st = START_FIELD \/ (st = START_RECORD /\ row <> [EmptyString]) ->
  parse (join_fields row ++ lineterminator ++ rest)%string
    {| state := st; records := rows; fields := fs; field := EmptyString |}
  = parse rest (reader_start (rows ++ [fs ++ row])).
Proof.
  induction row as [|f row IH]; intros rest rows fs st Hne Hst; [congruence|].
  destruct row as [|g row].
  - cbn [join_fields]. apply parse_field_end.
    destruct Hst as [-> | [-> Hrow]]; [left; reflexivity|].
    right. split; [reflexivity|].
    unfold csv_field. destruct (needs_quotes f); [discriminate|].
    intros ->. apply Hrow. reflexivity.
  - cbn [join_fields]. rewrite string_app_assoc, string_app_cons.
    rewrite parse_field_comma by (destruct Hst as [-> | [-> _]]; tauto).
    rewrite IH by (try discriminate; left; reflexivity).
    rewrite <- app_assoc. reflexivity.
Qed.

(** One row. *)
Lemma parse_writerow row rest rows :
  parse (writerow row ++ rest)%string (reader_start rows)
  = parse rest (reader_start (rows ++ [row])).
Proof.
  destruct row as [|f row].
  - reflexivity.
  - destruct (decide (f :: row = [EmptyString])) as [E | Hne].
    + rewrite E. reflexivity.
    + assert (Hw : writerow (f :: row)
                   = (join_fields (f :: row) ++ lineterminator)%string).
      { destruct f as [|c f]; [|reflexivity].
        destruct row as [|g row]; [congruence | reflexivity]. }
      rewrite Hw, string_app_assoc.
      unfold reader_start at 1.
      rewrite parse_join_fields by (try discriminate; right; split; auto).
      reflexivity.
Qed.

(** The reader gives back the rows the writer was given. *)
Lemma csv_round_trip rows : csv_reader (writerows rows) = rows.
Proof.
  unfold csv_reader.
  assert (H : forall rows' acc,
             parse (writerows rows') (reader_start acc)
             = reader_start (acc ++ rows')).
  { induction rows' as [|row rows' IH]; intros acc.
    - cbn [writerows parse]. rewrite app_nil_r. reflexivity.
    - cbn [writerows]. rewrite parse_writerow, IH, <- app_assoc. reflexivity. }
  rewrite H. reflexivity.
Qed.

End RoundTrip.

(** ** The log of a run of events *)

Lemma data_rows_length env k events :
  length (data_rows env k events) = length events.
Proof.
  revert k. induction events as [|event events IH]; intros k; cbn;
    [reflexivity | rewrite IH; reflexivity].
Qed.

Lemma data_rows_events env k events :
  map (fun row => nth 1 row EmptyString) (data_rows env k events) = events.
Proof.
  revert k. induction events as [|event events IH]; intros k; cbn [data_rows map];
    [reflexivity | rewrite IH; reflexivity].
Qed.

Lemma data_rows_two_fields env k events :
  Forall (fun row => length row = 2%nat) (data_rows env k events).
Proof.
  revert k. induction events as [|event events IH]; intros k; cbn [data_rows];
    constructor; [reflexivity | apply IH].
Qed.

(** With no event logged the file is never opened: a log path that did
    not exist still does not exist. *)
Lemma log_no_event env w (path : string) :
  disk (log_events env [] w) !! path = disk w !! path.
Proof. reflexivity. Qed.

(** C9. Appending N events (a first one and N - 1 more) through the logger
    to a writable log path whose file does not exist yet produces a file
    whose text is the header line [timestamp,event] followed by one line per
    event; read back as CSV it has exactly the header row and then N rows of
    two fields, the timestamp of the clock reading taken for the event and
    the event kind, in the order of the events. *)
Theorem log_round_trip env w path event events :
  log_path (self w) = Some path ->
  path <> EmptyString ->
  writable env path = true ->
  disk w !! path = None ->
  let rows := data_rows env (ticks w) (event :: events) in
  exists text,
    disk (log_events env (event :: events) w) !! path = Some text
    /\ text = (("timestamp,event" ++ lineterminator) ++ writerows rows)%string
    /\ csv_reader text = header :: rows
    /\ length rows = length (event :: events)
    /\ Forall (fun row => length row = 2%nat) rows
    /\ map (fun row => nth 1 row EmptyString) rows = event :: events.
Proof.
  intros Hpath Hne Hw Hfresh. cbv zeta.
  exists (writerows (header :: data_rows env (ticks w) (event :: events))).
  split; [|split; [reflexivity|split; [apply csv_round_trip|split;
    [apply data_rows_length|split;
      [apply data_rows_two_fields | apply data_rows_events]]]]].
  cbn [log_events fold_left].
  fold (log_events env events (_maybe_log_event env event w)).
  rewrite (log_events_file env events _ path
             (writerow header ++ writerow [time_strftime env (ticks w); event])%string).
  - rewrite log_event_ticks. unfold log_reads. rewrite Hpath.
    destruct path; [congruence|].
    rewrite Nat.add_1_r. cbn [writerows data_rows].
    rewrite string_app_assoc. reflexivity.
  - rewrite log_event_self. exact Hpath.
  - exact Hne.
  - exact Hw.
  - rewrite (log_event_disk env event path w Hpath Hne Hw), Hfresh.
    apply lookup_insert_eq.
Qed.

(** Three events logged by the new detector to events.csv. *)
Lemma log_round_trip_witness :
  exists text,
    disk (log_events env_epoch
            ["NO_FACE_ALERT"; "ALERT_ESCALATED"; "ALERT_CLEARED"]%string
            w_logging) !! "events.csv"%string = Some text
    /\ csv_reader text
       = [ ["timestamp"; "event"];
           ["2025-11-03 09:03:00"; "NO_FACE_ALERT"];
           ["2025-11-03 09:03:00"; "ALERT_ESCALATED"];
           ["2025-11-03 09:03:00"; "ALERT_CLEARED"] ]%string.
Proof.
  destruct (log_round_trip env_epoch w_logging "events.csv"%string
              "NO_FACE_ALERT"%string ["ALERT_ESCALATED"; "ALERT_CLEARED"]%string)
    as (text & Hfile & _ & Hrows & _);
    [reflexivity | discriminate | reflexivity | reflexivity |].
  exists text. split; [exact Hfile | exact Hrows].
Defined.

(** * Further properties of the detector *)

(** ** One frame, case by case *)

Lemma count_calls_app p cs cs' :
  count_calls p (cs ++ cs') = (count_calls p cs + count_calls p cs')%nat.
Proof. unfold count_calls. rewrite List.filter_app, length_app. reflexivity. Qed.

Lemma count_calls_if p (b : bool) (c : Call) :
  count_calls p (if b then [c] else []) = Nat.b2n (b && p c).
Proof. destruct b; [|reflexivity]. unfold count_calls. cbn. destruct (p c); reflexivity. Qed.

(** The branches of [process_frame]: closed eyes with or without alert, open
    eyes, and no face with guard mode off, before the timeout, past it, past
    the escalation window. Each branch rewrites the detector and the calls of
    the frame. *)
Ltac frame_cases env frame w :=
  let e := fresh "e" in
  let He := fresh "He" in
  let Hcond := fresh "Hcond" in
  let Hg := fresh "Hg" in
  let Hq := fresh "Hq" in
  let Ha := fresh "Ha" in
  let Hn := fresh "Hn" in
  let Hc := fresh "Hc" in
  let Hs := fresh "Hs" in
  destruct frame as [e|];
  [ destruct (Qltb e (EAR_THRESH (self w))) eqn:He;
    [ try rewrite (process_frame_closed_self env e w He);
      try rewrite (process_frame_closed_calls env e w He);
      destruct (fatigue_alert_condition (scorer_closed (reading env w) (self w)))
        eqn:Hcond
    | try rewrite (process_frame_open_self env e w He);
      try rewrite (process_frame_open_calls env e w He) ]
  | cbn [process_frame]; destruct (guard_mode (self w)) eqn:Hg;
    [ destruct (handle_no_face_cases env w Hg) as [Hq | [[Ha Hn] | [Ha Hn]]];
      [ try rewrite (handle_no_face_quiet_self env w Hg Hq);
        try rewrite (handle_no_face_quiet_calls env w Hg Hq)
      | try rewrite (handle_no_face_alert_self env w Hg Ha Hn);
        try rewrite (handle_no_face_alert_calls env w Hg Ha Hn)
      | destruct (handle_no_face_escalated env w Hg Ha Hn) as [Hc Hs];
        try rewrite Hs; try rewrite Hc ]
    | try rewrite (handle_no_face_off env w Hg) ] ].

(** ** Requests to the audio backend follow the edges of the alert *)

(** X1. Stop-playback is requested on a frame exactly when the audio alert was
    active before the frame and is not after it, and then once. *)
Theorem stop_on_falling_edge env frame w :
  let w' := process_frame env frame w in
  count_calls is_stop (calls w')
  = (count_calls is_stop (calls w)
     + Nat.b2n (alert_active (self w) && negb (alert_active (self w'))))%nat.
Proof.
  cbv zeta. frame_cases env frame w;
    cbn [alert_active set_alert_active set_last_beep_time set_guard_escalated
         set_guard_alert_active set_fatigue_score set_counter
         set_last_face_time scorer_open scorer_closed];
    rewrite ?count_calls_app, ?count_calls_if, ?app_nil_r;
    cbn [is_stop]; rewrite ?andb_false_r, ?andb_true_r;
    destruct (alert_active (self w)); cbn;
    repeat match goal with
           | |- context [if ?b then _ else _] => destruct b
           end; cbn; lia.
Qed.

(** X2. A tone is requested only on a frame that leaves the audio alert active,
    and the escalation tone only on a no-face frame in guard mode that
    leaves [guard_escalated] set. *)
Theorem tones_only_when_alerting env frame w :
  let w' := process_frame env frame w in
  (count_play (calls w') <> count_play (calls w) ->
     alert_active (self w') = true)
  /\ (count_calls is_escalation_tone (calls w')
      <> count_calls is_escalation_tone (calls w) ->
      frame = None /\ guard_mode (self w) = true
      /\ guard_escalated (self w') = true).
Proof.
  cbv zeta. unfold count_play, count_calls.
  frame_cases env frame w;
    rewrite ?List.filter_app, ?length_app, ?app_nil_r;
    cbn [alert_active guard_escalated set_alert_active set_last_beep_time
         set_guard_escalated set_guard_alert_active scorer_open];
    (split; intros Hdiff;
     [ try reflexivity | try (split; [reflexivity | split; reflexivity]) ]);
    exfalso; apply Hdiff; clear Hdiff;
    repeat match goal with
           | |- context [if ?b then _ else _] => destruct b
           end; cbn; lia.
Qed.


Lemma tones_only_when_alerting_witness :
  alert_active (self (process_frame env_frames None w_escalated2)) = true
  /\ guard_escalated (self (process_frame env_frames None w_escalated2)) = true.
Proof.
  destruct (tones_only_when_alerting env_frames None w_escalated2) as [Hplay Htone].
  split.
  - apply Hplay. vm_compute. discriminate.
  - apply Htone. vm_compute. discriminate.
Defined.

(** ** Without guard mode *)

Lemma guard_mode_off_frame env frame w :
  guard_mode (self w) = false ->
  let w' := process_frame env frame w in
  guard_mode (self w') = false
  /\ guard_escalated (self w') = guard_escalated (self w)
  /\ count_event "NO_FACE_ALERT" (calls w') = count_event "NO_FACE_ALERT" (calls w)
  /\ count_event "ALERT_ESCALATED" (calls w')
     = count_event "ALERT_ESCALATED" (calls w)
  /\ count_event "ALERT_CLEARED" (calls w') = count_event "ALERT_CLEARED" (calls w)
  /\ count_calls is_escalation_tone (calls w')
     = count_calls is_escalation_tone (calls w).
Proof.
  intros Hoff. cbv zeta. unfold count_event, count_calls.
  frame_cases env frame w; try congruence;
    rewrite ?List.filter_app, ?length_app, ?app_nil_r;
    cbn [guard_mode guard_escalated set_alert_active set_last_beep_time
         set_guard_escalated set_guard_alert_active set_fatigue_score
         set_counter set_last_face_time scorer_open scorer_closed];
    (split; [first [exact Hoff | assumption]|]);
    repeat (split; [try reflexivity|]); try reflexivity;
    repeat match goal with
           | |- context [if ?b then _ else _] => destruct b
           end; cbn; lia.
Qed.

(** X3. With guard mode off, absence is never reported: whatever the frames, no
    NO_FACE_ALERT, ALERT_ESCALATED or ALERT_CLEARED event is emitted, the
    escalation tone is never requested and [guard_escalated] keeps its
    value; a run of no-face frames leaves the whole world as it was, clock
    readings included. *)
Theorem guard_mode_off env w frames :
  guard_mode (self w) = false ->
  let w' := process_frames env frames w in
  guard_escalated (self w') = guard_escalated (self w)
  /\ count_event "NO_FACE_ALERT" (calls w') = count_event "NO_FACE_ALERT" (calls w)
  /\ count_event "ALERT_ESCALATED" (calls w')
     = count_event "ALERT_ESCALATED" (calls w)
  /\ count_event "ALERT_CLEARED" (calls w') = count_event "ALERT_CLEARED" (calls w)
  /\ count_calls is_escalation_tone (calls w')
     = count_calls is_escalation_tone (calls w)
  /\ forall n, process_frames env (repeat None n) w = w.
Proof.
  intros Hoff. cbv zeta. split; [|split; [|split; [|split; [|split]]]].
  6: { intros n. induction n as [|n IH]; [reflexivity|].
       cbn [repeat process_frames process_frame].
       rewrite (handle_no_face_off env w Hoff). exact IH. }
  all: revert w Hoff; induction frames as [|frame frames IH]; intros w Hoff;
    [reflexivity|]; cbn [process_frames];
    destruct (guard_mode_off_frame env frame w Hoff)
      as (Hoff' & Hesc & Hface & Hescal & Hclear & Htone);
    rewrite (IH _ Hoff'); assumption.
Qed.

(** The detector as built without [--guard] sees no face at all. *)
Lemma guard_mode_off_witness :
  process_frames env_epoch (repeat None 5) w_idle = w_idle
  /\ count_event "NO_FACE_ALERT"
       (calls (process_frames env_epoch [None; Some (1 # 5)%Q; None] w_idle))
     = 0%nat.
Proof.
  destruct (guard_mode_off env_epoch w_idle [] eq_refl)
    as (_ & _ & _ & _ & _ & Hidle).
  destruct (guard_mode_off env_epoch w_idle [None; Some (1 # 5)%Q; None] eq_refl)
    as (_ & Hface & _).
  split; [apply Hidle | exact Hface].
Defined.


(** ** What a run keeps *)

(** X4. No frame assigns a threshold, an interval, a mode or the log path. *)
Theorem configuration_is_fixed env frames w :
  config (self (process_frames env frames w)) = config (self w).
Proof. apply process_frames_config. Qed.

Lemma process_frame_counter env frame w :
  counter (self (process_frame env frame w))
  = match frame with
    | Some e => if Qltb e (EAR_THRESH (self w)) then (counter (self w) + 1)%Z else 0%Z
    | None => counter (self w)
    end.
Proof.
  destruct frame as [e|].
  - destruct (Qltb e (EAR_THRESH (self w))) eqn:He.
    + apply Qltb_true in He.
      apply (process_frame_closed_fields env e w He).
    + apply Qltb_false in He.
      apply (process_frame_open_fields env e w He).
  - apply handle_no_face_config.
Qed.

(** X5. The counter is never negative; over a run without an open-eyed face it
    grows by the number of closed-eye face frames, so no-face frames in
    between neither reset nor advance it; an open-eyed face resets it. *)
Theorem counter_counts_closed_eyes env w frames :
  (0 <= counter (self w))%Z ->
  let w' := process_frames env frames w in
  (0 <= counter (self w'))%Z
  /\ (no_open_eyes (EAR_THRESH (self w)) frames ->
      counter (self w')
      = (counter (self w) + Z.of_nat (count_closed (EAR_THRESH (self w)) frames))%Z)
  /\ (forall e, (EAR_THRESH (self w') <= e)%Q ->
      counter (self (process_frame env (Some e) w')) = 0%Z).
Proof.
  intros Hpos. cbv zeta. split; [|split].
  - revert w Hpos. induction frames as [|frame frames IH]; intros w Hpos;
      [exact Hpos|].
    cbn [process_frames]. apply IH. rewrite process_frame_counter.
    destruct frame as [e|]; [destruct (Qltb _ _)|]; lia.
  - clear Hpos. revert w. induction frames as [|frame frames IH]; intros w Hrun.
    + cbn. lia.
    + inversion Hrun as [|f fs Hframe Hrest]; subst.
      cbn [process_frames count_closed].
      pose proof (process_frame_config env frame w) as Hcfg.
      destruct (config_eq _ _ Hcfg) as (Hthr & _).
      rewrite IH by (rewrite Hthr; exact Hrest).
      rewrite Hthr, process_frame_counter.
      destruct frame as [e|]; [rewrite Hframe|]; lia.
  - intros e He. rewrite process_frame_counter.
    apply Qltb_false in He. rewrite He. reflexivity.
Qed.

(** Two closed-eye frames around a no-face frame count as two. *)
Lemma counter_counts_closed_eyes_witness :
  counter (self (process_frames env_jump
                   [Some (1 # 5)%Q; None; Some (1 # 5)%Q] w_guard)) = 2%Z.
Proof.
  destruct (counter_counts_closed_eyes env_jump w_guard
              [Some (1 # 5)%Q; None; Some (1 # 5)%Q]) as (_ & Hcount & _);
    [vm_compute; discriminate|].
  apply Hcount. repeat constructor.
Defined.

(** X6. The score does not fall on a closed-eye frame, does not rise on an
    open-eye frame and does not move while no face is seen. *)
Theorem fatigue_score_monotone env frame w :
  (0 <= fatigue_increase_per_frame (self w))%Q ->
  (0 <= fatigue_decay_per_frame (self w))%Q ->
  (0 <= fatigue_score (self w) <= 100)%Q ->
  let s := fatigue_score (self w) in
  let s' := fatigue_score (self (process_frame env frame w)) in
  match frame with
  | Some e => if Qltb e (EAR_THRESH (self w)) then (s <= s')%Q else (s' <= s)%Q
  | None => s' = s
  end.
Proof.
  intros Hinc Hdec [Hlo Hhi]. cbv zeta. destruct frame as [e|].
  - destruct (Qltb e (EAR_THRESH (self w))) eqn:He.
    + apply Qltb_true in He.
      destruct (process_frame_closed_fields env e w He) as (_ & _ & Hs).
      cbv zeta in Hs. rewrite Hs. apply Q.min_glb; [exact Hhi|].
      rewrite <- (Qplus_0_r (fatigue_score (self w))) at 1.
      apply Qplus_le_r. exact Hinc.
    + apply Qltb_false in He.
      destruct (process_frame_open_fields env e w He) as (_ & _ & Hs).
      cbv zeta in Hs. rewrite Hs. apply Q.max_lub; [exact Hlo|].
      rewrite <- (Qplus_0_r (fatigue_score (self w))) at 2.
      unfold Qminus. apply Qplus_le_r. apply (Qopp_le_compat 0). exact Hdec.
  - apply handle_no_face_config.
Qed.

Lemma fatigue_score_monotone_witness :
  (fatigue_score (self w_alerting)
   <= fatigue_score (self (process_frame env_jump (Some (1 # 5)%Q) w_alerting)))%Q.
Proof.
  apply (fatigue_score_monotone env_jump (Some (1 # 5)%Q) w_alerting);
    [discriminate | discriminate | split; discriminate].
Defined.


(** ** The time of the last face *)

Lemma handle_audio_alert_ticks env active w :
  (ticks w <= ticks (_handle_audio_alert env active w))%nat.
Proof.
  destruct active.
  - rewrite handle_audio_alert_true_ticks. lia.
  - rewrite handle_audio_alert_false_ticks. lia.
Qed.

Lemma process_frame_face_ticks env e w :
  (S (ticks w) <= ticks (process_frame env (Some e) w))%nat.
Proof.
  unfold process_frame. rewrite !put_text_ticks.
  destruct (Qltb e _).
  - destruct (fatigue_alert_condition _).
    + rewrite log_event_ticks.
      match goal with
      | |- context [_handle_audio_alert env true ?x] =>
          pose proof (handle_audio_alert_ticks env true x) as H
      end.
      cbn [ticks upd tick put_text_with_background add_label] in H. lia.
    + cbn [ticks upd tick]. lia.
  - match goal with
    | |- context [_handle_audio_alert env false ?x] =>
        pose proof (handle_audio_alert_ticks env false x) as H
    end.
    cbn [ticks upd tick] in H. lia.
Qed.


Lemma process_frame_ticks env frame w :
  (ticks w <= ticks (process_frame env frame w))%nat.
Proof.
  destruct frame as [e|].
  - pose proof (process_frame_face_ticks env e w). lia.
  - apply handle_no_face_ticks.
Qed.

Lemma process_frame_last_face_time env frame w :
  last_face_time (self (process_frame env frame w))
  = match frame with
    | Some _ => reading env w
    | None => last_face_time (self w)
    end.
Proof.
  destruct frame as [e|].
  - destruct (Qltb e (EAR_THRESH (self w))) eqn:He.
    + rewrite (process_frame_closed_self env e w He).
      destruct (fatigue_alert_condition _); reflexivity.
    + rewrite (process_frame_open_self env e w He). reflexivity.
  - apply handle_no_face_config.
Qed.

(** X7. [last_face_time] is set to the frame's clock reading by every face
    frame and left alone by every no-face frame; from construction on it is
    always one of the readings already taken, so on a clock that does not
    run backwards the seconds since the last face are never negative. *)
Theorem last_face_time_is_a_reading env guard headless_ fullscreen_ path fs frames :
  let w := process_frames env frames (__init__ env guard headless_ fullscreen_ path fs) in
  face_time_read env w
  /\ (monotone_clock env -> (0 <= seconds_since_face env w)%Q)
  /\ (forall e, last_face_time (self (process_frame env (Some e) w)) = reading env w)
  /\ last_face_time (self (process_frame env None w)) = last_face_time (self w).
Proof.
  cbv zeta.
  assert (Hread : face_time_read env
            (process_frames env frames
               (__init__ env guard headless_ fullscreen_ path fs))).
  { induction frames as [|frame frames IH] using rev_ind.
    - exists 0%nat. split; [cbn; lia | reflexivity].
    - rewrite process_frames_snoc.
      set (w := process_frames env frames _) in *.
      destruct IH as (k & Hk & Hface).
      unfold face_time_read. rewrite process_frame_last_face_time.
      destruct frame as [e|].
      + exists (ticks w). split; [|reflexivity].
        pose proof (process_frame_face_ticks env e w). lia.
      + exists k. split; [|exact Hface].
        pose proof (process_frame_ticks env None w). lia. }
  split; [exact Hread|]. split; [|split].
  - intros Hmono. destruct Hread as (k & Hk & Hface).
    unfold seconds_since_face, reading. rewrite Hface.
    apply (Qplus_le_l _ _ (time_time env k)).
    rewrite Qplus_0_l.
    assert (E : (time_time env (ticks (process_frames env frames
                    (__init__ env guard headless_ fullscreen_ path fs)))
                 - time_time env k + time_time env k
                 == time_time env (ticks (process_frames env frames
                      (__init__ env guard headless_ fullscreen_ path fs))))%Q)
      by ring.
    rewrite E. apply Hmono. lia.
  - intros e. apply (process_frame_last_face_time env (Some e)).
  - apply (process_frame_last_face_time env None).
Qed.

(** The guard detector built at 1000 s, after an absence read at 1070 s. *)
Lemma last_face_time_is_a_reading_witness :
  (0 <= seconds_since_face env_jump w_alerting)%Q.
Proof.
  destruct (last_face_time_is_a_reading env_jump true true false
              (Some "guard.csv"%string) ∅ [None]) as (_ & Hpos & _).
  apply Hpos. exact env_jump_monotone.
Defined.


(** ** Every alerting frame reports *)

Lemma fatigue_alert_condition_persists t d :
  (0 <= fatigue_increase_per_frame d)%Q ->
  (fatigue_alert_threshold d <= 100)%Q ->
  fatigue_alert_condition d = true ->
  fatigue_alert_condition (scorer_closed t d) = true.
Proof.
  intros Hinc Hthr Hcond. unfold fatigue_alert_condition in *.
  cbn [counter CLOSED_EYES_FRAME fatigue_score fatigue_alert_threshold
       scorer_closed set_fatigue_score set_counter set_last_face_time].
  apply orb_true_iff in Hcond. apply orb_true_iff.
  destruct Hcond as [Hcount | Hscore].
  - left. apply Z.geb_le. apply Z.geb_le in Hcount. lia.
  - right. apply Qgeb_true. apply Qgeb_true in Hscore.
    apply Q.min_glb; [exact Hthr|].
    eapply Qle_trans; [exact Hscore|].
    rewrite <- (Qplus_0_r (fatigue_score d)) at 1.
    apply Qplus_le_r. exact Hinc.
Qed.

(** X8. Once the fatigue alert condition holds, every further closed-eye frame
    takes the alert branch again: the alert stays active and FATIGUE_ALERT
    is emitted on each frame, not only on the first. *)
Theorem fatigue_alert_every_frame env ears : forall w,
  Forall (fun e => (e < EAR_THRESH (self w))%Q) ears ->
  (0 <= fatigue_increase_per_frame (self w))%Q ->
  (fatigue_alert_threshold (self w) <= 100)%Q ->
  fatigue_alert_condition (self w) = true ->
  let w' := process_frames env (map Some ears) w in
  count_event "FATIGUE_ALERT" (calls w')
  = (count_event "FATIGUE_ALERT" (calls w) + length ears)%nat
  /\ fatigue_alert_condition (self w') = true
  /\ (ears <> [] -> alert_active (self w') = true).
Proof.
  induction ears as [|e ears IH]; intros w Hclosed Hinc Hthr Hcond; cbv zeta.
  - cbn [map process_frames length]. split; [lia|]. split; [exact Hcond|].
    congruence.
  - inversion Hclosed as [|e' ears' He Hrest]; subst.
    cbn [map process_frames length].
    pose proof (fatigue_alert_condition_persists (reading env w) _ Hinc Hthr Hcond)
      as Hnext.
    destruct (closed_frame_alert env e w He Hnext) as [Hactive Hevent].
    cbv zeta in Hactive, Hevent.
    pose proof (process_frame_config env (Some e) w) as Hcfg.
    destruct (config_eq _ _ Hcfg) as (Het & _ & _ & Hi & _ & Ht & _).
    destruct (IH (process_frame env (Some e) w)) as (Hcount & Hcond' & Hact').
    { rewrite Het. exact Hrest. }
    { rewrite Hi. exact Hinc. }
    { rewrite Ht. exact Hthr. }
    { rewrite (fatigue_alert_condition_closed env e w)
        by (apply Qltb_true; exact He).
      exact Hnext. }
    cbv zeta in *. split; [rewrite Hcount, Hevent; lia|].
    split; [exact Hcond'|]. intros _.
    destruct ears as [|e2 ears]; [exact Hactive|].
    apply Hact'. discriminate.
Qed.

(** The new detector after 20 closed-eye frames, and 5 more. *)
Lemma fatigue_alert_every_frame_witness :
  let w := process_frames env_epoch (map Some (repeat (1 # 5)%Q 20)) w_idle in
  count_event "FATIGUE_ALERT"
    (calls (process_frames env_epoch (map Some (repeat (1 # 5)%Q 5)) w))
  = (count_event "FATIGUE_ALERT" (calls w) + 5)%nat.
Proof.
  cbv zeta.
  match goal with
  | |- context [process_frames _ (map Some (repeat _ 5)) ?w0] =>
      destruct (fatigue_alert_every_frame env_epoch (repeat (1 # 5)%Q 5) w0)
        as (Hcount & _ & _)
  end.
  - apply List.Forall_forall. intros x Hx. apply repeat_spec in Hx. subst x.
    vm_compute. reflexivity.
  - vm_compute. discriminate.
  - vm_compute. discriminate.
  - vm_compute. reflexivity.
  - exact Hcount.
Defined.

(** X9. In guard mode, on a clock that does not run backwards, once a no-face
    frame is read past the timeout every further no-face frame raises the
    alert again: NO_FACE_ALERT is emitted and the label drawn on each frame,
    and the audio alert stays active. *)
Theorem no_face_alert_every_frame env n : forall w,
  guard_mode (self w) = true ->
  monotone_clock env ->
  (no_face_timeout_seconds (self w) <= seconds_since_face env w)%Q ->
  let w' := process_frames env (repeat None n) w in
  count_event "NO_FACE_ALERT" (calls w')
  = (count_event "NO_FACE_ALERT" (calls w) + n)%nat
  /\ screen w' = screen w ++ repeat no_face_label n
  /\ (n <> 0%nat -> alert_active (self w') = true).
Proof.
  induction n as [|n IH]; intros w Hg Hmono Hpast; cbv zeta.
  - cbn [repeat process_frames]. split; [lia|].
    split; [rewrite app_nil_r; reflexivity | congruence].
  - cbn [repeat process_frames].
    destruct (no_face_frame_alert env w Hg Hpast) as (Hscreen & Hactive & Hevent).
    cbv zeta in Hscreen, Hactive, Hevent.
    destruct (handle_no_face_config env w) as (Hcfg & Hface & _).
    destruct (config_eq _ _ Hcfg)
      as (_ & _ & _ & _ & _ & _ & Hg' & _ & _ & _ & Ht & _).
    cbn [process_frame] in *.
    destruct (IH (_handle_no_face env w)) as (Hcount & Hscr & Hact).
    { rewrite Hg'. exact Hg. }
    { exact Hmono. }
    { unfold seconds_since_face, reading in *. rewrite Ht, Hface.
      eapply Qle_trans; [exact Hpast|].
      apply Qplus_le_l. apply Hmono. apply handle_no_face_ticks. }
    cbv zeta in *. split; [rewrite Hcount, Hevent; lia|].
    split.
    + rewrite Hscr, Hscreen, <- app_assoc. reflexivity.
    + intros _. destruct n as [|n]; [exact Hactive|].
      apply Hact. discriminate.
Qed.

(** The guard detector built at 1000 s: four no-face frames read at
    1070 s. *)
Lemma no_face_alert_every_frame_witness :
  count_event "NO_FACE_ALERT"
    (calls (process_frames env_jump (repeat None 4) w_guard)) = 4%nat.
Proof.
  destruct (no_face_alert_every_frame env_jump 4 w_guard eq_refl env_jump_monotone)
    as (Hcount & _ & _); [vm_compute; discriminate|].
  exact Hcount.
Defined.


(** ** The audio backend *)

Section Backend.

Variable env : Env.

Lemma sound_follows_upd f w : sound_follows env w -> sound_follows env (upd f w).
Proof. exact (fun H => H). Qed.

Lemma sound_follows_tick w : sound_follows env w -> sound_follows env (tick w).
Proof. exact (fun H => H). Qed.

Lemma sound_follows_put_text text w :
  sound_follows env w -> sound_follows env (put_text_with_background text w).
Proof. exact (fun H => H). Qed.

Lemma sound_follows_play_beep w :
  sound_follows env w -> sound_follows env (_play_beep env w).
Proof.
  unfold sound_follows, _play_beep. intros H.
  destruct (sd env && negb (sd_raises env)) eqn:Hsd; [|destruct (darwin env) eqn:Hd];
    cbn [sound calls add_sound add_call];
    rewrite List.flat_map_app, <- H; cbn [flat_map backend];
    rewrite Hsd, ?Hd, ?app_nil_r; reflexivity.
Qed.

Lemma sound_follows_play_escalation_beep w :
  sound_follows env w -> sound_follows env (_play_escalation_beep env w).
Proof.
  unfold sound_follows, _play_escalation_beep. intros H.
  destruct (sd env && negb (sd_raises env)) eqn:Hsd; [|destruct (darwin env) eqn:Hd];
    cbn [sound calls add_sound add_call];
    rewrite List.flat_map_app, <- H; cbn [flat_map backend];
    rewrite Hsd, ?Hd, ?app_nil_r; reflexivity.
Qed.

Lemma sound_follows_stop_audio w :
  sound_follows env w -> sound_follows env (_stop_audio env w).
Proof.
  unfold sound_follows, _stop_audio. intros H.
  destruct (sd env && negb (sd_raises env)) eqn:Hsd;
    cbn [sound calls add_sound add_call];
    rewrite List.flat_map_app, <- H; cbn [flat_map backend];
    rewrite Hsd, ?app_nil_r; reflexivity.
Qed.

Lemma sound_follows_log_event event w :
  sound_follows env w -> sound_follows env (_maybe_log_event env event w).
Proof.
  unfold sound_follows, _maybe_log_event. intros H.
  repeat case_match; cbn [sound calls add_call tick set_disk];
    rewrite List.flat_map_app, <- H; cbn [flat_map backend];
    rewrite app_nil_r; reflexivity.
Qed.

Create HintDb sound_trace.

Hint Resolve sound_follows_upd sound_follows_tick sound_follows_put_text
  sound_follows_play_beep sound_follows_play_escalation_beep
  sound_follows_stop_audio sound_follows_log_event : sound_trace.

Lemma sound_follows_handle_audio_alert active w :
  sound_follows env w -> sound_follows env (_handle_audio_alert env active w).
Proof.
  intros H. unfold _handle_audio_alert.
  repeat case_match; auto 10 with sound_trace.
Qed.

Hint Resolve sound_follows_handle_audio_alert : sound_trace.

Lemma sound_follows_handle_no_face w :
  sound_follows env w -> sound_follows env (_handle_no_face env w).
Proof.
  intros H. unfold _handle_no_face.
  repeat case_match; auto 20 with sound_trace.
Qed.

Lemma sound_follows_process_frame frame w :
  sound_follows env w -> sound_follows env (process_frame env frame w).
Proof.
  intros H. destruct frame as [e|]; [|apply sound_follows_handle_no_face; exact H].
  unfold process_frame.
  repeat case_match; auto 20 with sound_trace.
Qed.

End Backend.


(** X10. From construction on, the backend trace is the trace of the audio
    methods, call by call: every request reaches sounddevice once when it is
    imported and does not raise; otherwise a tone falls back to afplay on
    macOS and a stop does nothing; and nothing else ever sounds. Without
    sounddevice and off macOS the run is silent, however many alerts are
    raised. *)
Theorem backend_follows_calls env guard headless_ fullscreen_ path fs frames :
  let w := process_frames env frames (__init__ env guard headless_ fullscreen_ path fs) in
  sound w = flat_map (backend env) (calls w)
  /\ (length (sound w) <= length (audio_calls (calls w)))%nat
  /\ (sd env && negb (sd_raises env) = false -> darwin env = false ->
      sound w = []).
Proof.
  cbv zeta.
  assert (H : sound_follows env
            (process_frames env frames
               (__init__ env guard headless_ fullscreen_ path fs))).
  { induction frames as [|frame frames IH] using rev_ind; [reflexivity|].
    rewrite process_frames_snoc. apply sound_follows_process_frame. exact IH. }
  unfold sound_follows in H. split; [exact H|]. rewrite H. clear H.
  generalize (calls (process_frames env frames
                       (__init__ env guard headless_ fullscreen_ path fs))).
  intros cs. split.
  - induction cs as [|c cs IH]; [reflexivity|].
    cbn [flat_map audio_calls List.filter]. rewrite length_app.
    fold (audio_calls cs).
    destruct c; cbn [backend is_audio length];
      repeat match goal with
             | |- context [if ?b then _ else _] => destruct b
             end; cbn [length]; lia.
  - intros Hsd Hd. induction cs as [|c cs IH]; [reflexivity|].
    cbn [flat_map]. rewrite IH.
    destruct c; cbn [backend]; rewrite ?Hsd, ?Hd; reflexivity.
Qed.

(** A guard alert with escalation on a machine that cannot play: a beep
    is requested, nothing sounds. *)
Lemma backend_follows_calls_witness :
  let w := process_frames env_silent [None; None]
             (__init__ env_silent true true false None ∅) in
  count_play (calls w) = 1%nat /\ sound w = [].
Proof.
  cbv zeta. split; [vm_compute; reflexivity|].
  destruct (backend_follows_calls env_silent true true false None ∅ [None; None])
    as (_ & _ & Hsilent).
  apply Hsilent; reflexivity.
Defined.


(** ** The disk *)

Section DiskInvariant.

Variable env : Env.
Variable lp : option string.
Variable R : gmap string string -> Prop.

(** [R] survives a write to the log file. *)
Hypothesis R_log : forall (path : string) (d : gmap string string) (text : string),
  lp = Some path -> path <> EmptyString -> writable env path = true ->
  R d -> R (<[path := text]> d).

Lemma disk_keeps_upd f w :
  log_path (f (self w)) = log_path (self w) ->
  disk_keeps lp R w -> disk_keeps lp R (upd f w).
Proof. intros Hf [Hlp HR]. split; [cbn; congruence | exact HR]. Qed.

Lemma disk_keeps_tick w : disk_keeps lp R w -> disk_keeps lp R (tick w).
Proof. exact (fun H => H). Qed.

Lemma disk_keeps_put_text text w :
  disk_keeps lp R w -> disk_keeps lp R (put_text_with_background text w).
Proof. exact (fun H => H). Qed.

Lemma disk_keeps_play_beep w :
  disk_keeps lp R w -> disk_keeps lp R (_play_beep env w).
Proof.
  unfold disk_keeps. rewrite play_beep_self, play_beep_disk. exact (fun H => H).
Qed.

Lemma disk_keeps_play_escalation_beep w :
  disk_keeps lp R w -> disk_keeps lp R (_play_escalation_beep env w).
Proof.
  unfold disk_keeps.
  rewrite play_escalation_beep_self, play_escalation_beep_disk.
  exact (fun H => H).
Qed.

Lemma disk_keeps_stop_audio w :
  disk_keeps lp R w -> disk_keeps lp R (_stop_audio env w).
Proof.
  unfold disk_keeps. rewrite stop_audio_self, stop_audio_disk. exact (fun H => H).
Qed.

Lemma disk_keeps_log_event event w :
  disk_keeps lp R w -> disk_keeps lp R (_maybe_log_event env event w).
Proof.
  intros [Hlp HR]. split; [rewrite log_event_self; exact Hlp|].
  unfold _maybe_log_event. cbn [self add_call].
  destruct (log_path (self w)) as [path|] eqn:Hpath; [|exact HR].
  destruct path as [|c path]; [exact HR|].
  cbn [tick add_call disk]. destruct (writable env (String c path)) eqn:Hw;
    [|exact HR].
  cbn [disk set_disk]. apply R_log; [congruence | discriminate | exact Hw | exact HR].
Qed.

Create HintDb disk_trace.

Hint Resolve disk_keeps_tick disk_keeps_put_text disk_keeps_play_beep
  disk_keeps_play_escalation_beep disk_keeps_stop_audio disk_keeps_log_event
  : disk_trace.

Hint Extern 1 (disk_keeps _ _ (upd _ _)) =>
  apply disk_keeps_upd; [reflexivity|] : disk_trace.

Lemma disk_keeps_handle_audio_alert active w :
  disk_keeps lp R w -> disk_keeps lp R (_handle_audio_alert env active w).
Proof.
  intros H. unfold _handle_audio_alert.
  repeat case_match; auto 10 with disk_trace.
Qed.

Hint Resolve disk_keeps_handle_audio_alert : disk_trace.

Lemma disk_keeps_handle_no_face w :
  disk_keeps lp R w -> disk_keeps lp R (_handle_no_face env w).
Proof.
  intros H. unfold _handle_no_face.
  repeat case_match; auto 20 with disk_trace.
Qed.

Lemma disk_keeps_process_frame frame w :
  disk_keeps lp R w -> disk_keeps lp R (process_frame env frame w).
Proof.
  intros H. destruct frame as [e|]; [|apply disk_keeps_handle_no_face; exact H].
  unfold process_frame.
  repeat case_match; auto 20 with disk_trace.
Qed.

Lemma disk_keeps_process_frames frames : forall w,
  disk_keeps lp R w -> disk_keeps lp R (process_frames env frames w).
Proof.
  induction frames as [|frame frames IH]; intros w H; [exact H|].
  cbn [process_frames]. apply IH. apply disk_keeps_process_frame. exact H.
Qed.

End DiskInvariant.

(** X11. No run touches a file other than the log: whatever the frames, every
    other path of the disk holds what it held. *)
Theorem log_touches_only_its_file env frames w (path : string) :
  log_path (self w) <> Some path ->
  disk (process_frames env frames w) !! path = disk w !! path.
Proof.
  intros Hother.
  apply (disk_keeps_process_frames env (log_path (self w))
           (fun d => d !! path = disk w !! path)).
  - intros p d text Hlp _ _ Hd. rewrite lookup_insert_ne; [exact Hd|].
    intros ->. apply Hother. exact Hlp.
  - split; reflexivity.
Qed.

Lemma log_touches_only_its_file_witness :
  disk (process_frames env_jump [None; None; Some (3 # 10)%Q] w_guard)
    !! "notes.txt"%string = None.
Proof.
  rewrite (log_touches_only_its_file env_jump _ w_guard "notes.txt"%string);
    [reflexivity | discriminate].
Defined.

(** X12. Without a log path, with an empty one, or with one that cannot be opened
    for appending, no frame changes the disk: the failure is swallowed and
    the run goes on. *)
Theorem log_off_keeps_disk env frames w :
  log_off env (log_path (self w)) ->
  disk (process_frames env frames w) = disk w.
Proof.
  intros Hoff.
  apply (disk_keeps_process_frames env (log_path (self w))
           (fun d => d = disk w)).
  - intros p d text Hlp Hne Hw _. exfalso.
    unfold log_off in Hoff. rewrite Hlp in Hoff.
    destruct Hoff as [Hempty | Hro]; congruence.
  - split; reflexivity.
Qed.

(** A guard alert on a machine whose log path cannot be opened: the alert
    is reported, the disk stays empty. *)
Lemma log_off_keeps_disk_witness :
  let w := __init__ env_silent true true false (Some "guard.csv"%string) ∅ in
  count_event "NO_FACE_ALERT" (calls (process_frames env_silent [None; None] w))
  = 2%nat
  /\ disk (process_frames env_silent [None; None] w) = ∅.
Proof.
  cbv zeta. split; [vm_compute; reflexivity|].
  rewrite (log_off_keeps_disk env_silent [None; None]); [reflexivity|].
  right. reflexivity.
Defined.


(** ** Side effects do not steer the alert logic *)

Section Independence.

Variables env env' : Env.

(** The two machines read the same clock. *)
Hypothesis same_clock : time_time env' = time_time env.

Lemma agree_self_eq w w' : agree w w' -> self w = self w'.
Proof. intros H. apply H. Qed.

Lemma agree_ticks_eq w w' : agree w w' -> ticks w = ticks w'.
Proof. intros H. apply H. Qed.

Lemma agree_reading w w' : agree w w' -> reading env w = reading env' w'.
Proof. intros (_ & Hk & _). unfold reading. rewrite same_clock, Hk. reflexivity. Qed.

Lemma agree_if (c c' : bool) (a a' b b' : World) :
  c = c' -> agree a a' -> agree b b' ->
  agree (if c then a else b) (if c' then a' else b').
Proof. intros <- Ha Hb. destruct c; assumption. Qed.

Lemma agree_upd f f' w w' :
  f = f' -> agree w w' -> agree (upd f w) (upd f' w').
Proof.
  intros <- (Hs & Hk & Hc). repeat split; cbn [self ticks calls upd]; congruence.
Qed.

Lemma agree_tick w w' : agree w w' -> agree (tick w) (tick w').
Proof.
  intros (Hs & Hk & Hc). repeat split; cbn [self ticks calls tick]; congruence.
Qed.

Lemma agree_put_text text text' w w' :
  agree w w' ->
  agree (put_text_with_background text w) (put_text_with_background text' w').
Proof. exact (fun H => H). Qed.

Lemma agree_play_escalation_beep w w' :
  agree w w' -> agree (_play_escalation_beep env w) (_play_escalation_beep env' w').
Proof.
  intros (Hs & Hk & Hc). unfold agree.
  rewrite !play_escalation_beep_self, !play_escalation_beep_ticks,
    !play_escalation_beep_calls. repeat split; congruence.
Qed.

Lemma agree_log_event event w w' :
  agree w w' ->
  agree (_maybe_log_event env event w) (_maybe_log_event env' event w').
Proof.
  intros (Hs & Hk & Hc). unfold agree.
  rewrite !log_event_self, !log_event_ticks, !log_event_calls.
  repeat split; congruence.
Qed.

Lemma agree_handle_audio_alert active w w' :
  agree w w' ->
  agree (_handle_audio_alert env active w) (_handle_audio_alert env' active w').
Proof.
  intros H. pose proof (agree_reading w w' H) as Hr.
  destruct H as (Hs & Hk & Hc). unfold agree.
  rewrite (handle_audio_alert_shape env active w),
    (handle_audio_alert_shape env' active w').
  destruct active.
  - rewrite !handle_audio_alert_true_last_beep, !handle_audio_alert_true_ticks,
      !handle_audio_alert_true_calls.
    unfold beep_due. rewrite Hr, Hs, Hk, Hc. repeat split; reflexivity.
  - rewrite !handle_audio_alert_false_last_beep, !handle_audio_alert_false_ticks,
      !handle_audio_alert_false_calls.
    rewrite Hs, Hk, Hc. repeat split; reflexivity.
Qed.

(** Equal arguments give equal conditions and equal updates: down to the
    detector, the clock and the readings taken of two worlds that agree. *)
Ltac agree_eq :=
  lazymatch goal with
  | |- self _ = self _ => apply agree_self_eq; agree_world
  | |- ticks _ = ticks _ => apply agree_ticks_eq; agree_world
  | |- reading _ _ = reading _ _ => apply agree_reading; agree_world
  | |- _ => first [reflexivity | f_equal; agree_eq]
  end
with agree_world :=
  lazymatch goal with
  | |- agree (if _ then _ else _) (if _ then _ else _) =>
      apply agree_if; [agree_eq | agree_world | agree_world]
  | |- agree (upd _ _) (upd _ _) => apply agree_upd; [agree_eq | agree_world]
  | |- agree (tick _) (tick _) => apply agree_tick; agree_world
  | |- agree (put_text_with_background _ _) (put_text_with_background _ _) =>
      apply agree_put_text; agree_world
  | |- agree (_play_escalation_beep _ _) (_play_escalation_beep _ _) =>
      apply agree_play_escalation_beep; agree_world
  | |- agree (_maybe_log_event _ _ _) (_maybe_log_event _ _ _) =>
      apply agree_log_event; agree_world
  | |- agree (_handle_audio_alert _ _ _) (_handle_audio_alert _ _ _) =>
      apply agree_handle_audio_alert; agree_world
  | |- _ => assumption
  end.

Lemma agree_handle_no_face w w' :
  agree w w' -> agree (_handle_no_face env w) (_handle_no_face env' w').
Proof.
  intros H. unfold _handle_no_face. cbv zeta. agree_world.
Qed.

Lemma agree_process_frame frame w w' :
  agree w w' -> agree (process_frame env frame w) (process_frame env' frame w').
Proof.
  intros H. destruct frame as [e|]; [|apply agree_handle_no_face; exact H].
  unfold process_frame. cbv zeta. agree_world.
Qed.

Lemma agree_process_frames frames : forall w w',
  agree w w' -> agree (process_frames env frames w) (process_frames env' frames w').
Proof.
  induction frames as [|frame frames IH]; intros w w' H; [exact H|].
  cbn [process_frames]. apply IH. apply agree_process_frame. exact H.
Qed.

End Independence.


(** X13. On two machines that read the same clock, the same frames drive the
    detector through the same states, the same calls of the audio methods
    and the logger, in the same order, whatever the machines differ in:
    sounddevice present or raising, macOS or not, log writable or not, the
    disk, the text formatting. No failure of a side effect reaches the alert
    logic. *)
Theorem alerting_ignores_side_effects env env' frames w w' :
  time_time env' = time_time env ->
  self w = self w' -> ticks w = ticks w' -> calls w = calls w' ->
  self (process_frames env frames w) = self (process_frames env' frames w')
  /\ ticks (process_frames env frames w) = ticks (process_frames env' frames w')
  /\ calls (process_frames env frames w) = calls (process_frames env' frames w').
Proof.
  intros Hclock Hs Hk Hc.
  apply (agree_process_frames env env' Hclock frames w w').
  repeat split; assumption.
Qed.

(** The guard detector on the machine that plays and logs and on the one
    that can do neither: the same calls. *)
Lemma alerting_ignores_side_effects_witness :
  calls (process_frames env_jump [None; None; Some (3 # 10)%Q] w_guard)
  = calls (process_frames env_silent [None; None; Some (3 # 10)%Q]
             (__init__ env_silent true true false (Some "guard.csv"%string) ∅)).
Proof.
  destruct (alerting_ignores_side_effects env_jump env_silent
              [None; None; Some (3 # 10)%Q] w_guard
              (__init__ env_silent true true false (Some "guard.csv"%string) ∅))
    as (_ & _ & Hcalls); [reflexivity..|].
  exact Hcalls.
Defined.

(** ** A log that is already there *)

(** X14. Events logged to a writable log file that exists are appended after
    what the file holds and no header is written again; when the file holds
    rows written by the logger before, reading it back gives those rows
    followed by one row per new event. *)
Theorem log_appends_to_existing_file env w path text events :
  log_path (self w) = Some path ->
  path <> EmptyString ->
  writable env path = true ->
  disk w !! path = Some text ->
  disk (log_events env events w) !! path
  = Some (text ++ writerows (data_rows env (ticks w) events))%string
  /\ (forall rows, text = writerows rows ->
      csv_reader (text ++ writerows (data_rows env (ticks w) events))%string
      = rows ++ data_rows env (ticks w) events).
Proof.
  intros Hpath Hne Hw Hfile. split.
  - apply log_events_file; assumption.
  - intros rows ->. rewrite <- writerows_app. apply csv_round_trip.
Qed.

(** A second run of the detector on the log the first run left. *)
Lemma log_appends_to_existing_file_witness :
  let first_run := log_events env_epoch ["NO_FACE_ALERT"%string] w_logging in
  let second_run := __init__ env_epoch false false false
                      (Some "events.csv"%string) (disk first_run) in
  exists text,
    disk (log_events env_epoch ["FATIGUE_ALERT"%string] second_run)
      !! "events.csv"%string = Some text
    /\ csv_reader text
       = [ ["timestamp"; "event"];
           ["2025-11-03 09:03:00"; "NO_FACE_ALERT"];
           ["2025-11-03 09:03:00"; "FATIGUE_ALERT"] ]%string.
Proof.
  cbv zeta.
  set (first_run := log_events env_epoch ["NO_FACE_ALERT"%string] w_logging).
  set (second_run := __init__ env_epoch false false false
                       (Some "events.csv"%string) (disk first_run)).
  destruct (log_appends_to_existing_file env_epoch second_run "events.csv"%string
              (writerows [ ["timestamp"; "event"];
                           ["2025-11-03 09:03:00"; "NO_FACE_ALERT"] ]%string)
              ["FATIGUE_ALERT"%string])
    as [Hfile Hrows];
    [reflexivity | discriminate | reflexivity | vm_compute; reflexivity |].
  eexists. split; [exact Hfile|].
  apply (Hrows [ ["timestamp"; "event"];
                 ["2025-11-03 09:03:00"; "NO_FACE_ALERT"] ]%string).
  reflexivity.
Defined.


(** ** Seeing a face restarts the timeout *)

(** X15. In guard mode, a no-face frame read less than the timeout after a face
    frame is quiet, whatever happened before the face was seen: it raises
    no alert and leaves the audio alert off and the escalation flag
    cleared. *)
Theorem face_restarts_timeout env e w :
  guard_mode (self w) = true ->
  let w1 := process_frame env (Some e) w in
  (reading env w1 - reading env w < no_face_timeout_seconds (self w))%Q ->
  let w2 := process_frame env None w1 in
  alert_active (self w2) = false
  /\ guard_escalated (self w2) = false
  /\ count_event "NO_FACE_ALERT" (calls w2) = count_event "NO_FACE_ALERT" (calls w1)
  /\ screen w2 = screen w1.
Proof.
  intros Hg. cbv zeta. intros Hsoon.
  pose proof (process_frame_config env (Some e) w) as Hcfg.
  destruct (config_eq _ _ Hcfg)
    as (_ & _ & _ & _ & _ & _ & Hg' & _ & _ & _ & Ht & _).
  destruct (no_face_frame_quiet env (process_frame env (Some e) w))
    as (Hscreen & Hactive & Hesc & Hevent & _).
  - rewrite Hg'. exact Hg.
  - unfold seconds_since_face.
    rewrite (process_frame_last_face_time env (Some e) w), Ht. exact Hsoon.
  - cbv zeta in *. repeat split; assumption.
Qed.

(** After the escalated guard alert, a face and then no face again at
    once. *)
Lemma face_restarts_timeout_witness :
  let w2 := process_frames env_jump [Some (3 # 10)%Q; None] w_alerting in
  alert_active (self w2) = false /\ guard_escalated (self w2) = false.
Proof.
  cbv zeta.
  destruct (face_restarts_timeout env_jump (3 # 10)%Q w_alerting eq_refl)
    as (Hactive & Hesc & _); [vm_compute; reflexivity|].
  split; [exact Hactive | exact Hesc].
Defined.


(** ** The log file against the events of a run *)

Section LogContent.

Variable env : Env.
Variable path : string.
Hypothesis path_set : path <> EmptyString.
Hypothesis path_writable : writable env path = true.

Lemma logged_app cs cs' : logged (cs ++ cs') = logged cs ++ logged cs'.
Proof. apply List.flat_map_app. Qed.

Lemma log_holds_upd f w :
  log_path (f (self w)) = log_path (self w) ->
  log_holds path w -> log_holds path (upd f w).
Proof. intros Hf [Hlp H]. split; [cbn; congruence | exact H]. Qed.

Lemma log_holds_tick w : log_holds path w -> log_holds path (tick w).
Proof. exact (fun H => H). Qed.

Lemma log_holds_put_text text w :
  log_holds path w -> log_holds path (put_text_with_background text w).
Proof. exact (fun H => H). Qed.

Lemma log_holds_play_beep w :
  log_holds path w -> log_holds path (_play_beep env w).
Proof.
  unfold log_holds.
  rewrite play_beep_self, play_beep_calls, play_beep_disk, logged_app.
  cbn [logged flat_map]. rewrite app_nil_r. exact (fun H => H).
Qed.

Lemma log_holds_play_escalation_beep w :
  log_holds path w -> log_holds path (_play_escalation_beep env w).
Proof.
  unfold log_holds.
  rewrite play_escalation_beep_self, play_escalation_beep_calls,
    play_escalation_beep_disk, logged_app.
  cbn [logged flat_map]. rewrite app_nil_r. exact (fun H => H).
Qed.

Lemma log_holds_stop_audio w :
  log_holds path w -> log_holds path (_stop_audio env w).
Proof.
  unfold log_holds.
  rewrite stop_audio_self, stop_audio_calls, stop_audio_disk, logged_app.
  cbn [logged flat_map]. rewrite app_nil_r. exact (fun H => H).
Qed.

(** An event adds its row, after the header when it is the first. *)
Lemma log_holds_log_event event w :
  log_holds path w -> log_holds path (_maybe_log_event env event w).
Proof.
  intros (Hlp & rows & Hevents & Hrows & Hfile).
  split; [rewrite log_event_self; exact Hlp|].
  exists (rows ++ [[time_strftime env (ticks w); event]]).
  rewrite (log_event_disk env event path w Hlp path_set path_writable).
  rewrite log_event_calls, logged_app, List.map_app, Hevents, lookup_insert_eq, Hfile.
  split; [reflexivity|]. split.
  - apply Forall_app. split; [exact Hrows|]. constructor; [reflexivity|constructor].
  - destruct rows as [|row rows].
    + cbn [app writerows]. unfold header. rewrite string_app_nil_r. reflexivity.
    + change (header :: (row :: rows) ++ [[time_strftime env (ticks w); event]])
        with ((header :: row :: rows) ++ [[time_strftime env (ticks w); event]]).
      rewrite writerows_app. cbn [writerows app].
      rewrite string_app_nil_r. reflexivity.
Qed.

Create HintDb log_trace.

Hint Resolve log_holds_tick log_holds_put_text log_holds_play_beep
  log_holds_play_escalation_beep log_holds_stop_audio log_holds_log_event
  : log_trace.

Hint Extern 1 (log_holds _ (upd _ _)) =>
  apply log_holds_upd; [reflexivity|] : log_trace.

Lemma log_holds_handle_audio_alert active w :
  log_holds path w -> log_holds path (_handle_audio_alert env active w).
Proof.
  intros H. unfold _handle_audio_alert.
  repeat case_match; auto 10 with log_trace.
Qed.

Hint Resolve log_holds_handle_audio_alert : log_trace.

Lemma log_holds_handle_no_face w :
  log_holds path w -> log_holds path (_handle_no_face env w).
Proof.
  intros H. unfold _handle_no_face.
  repeat case_match; auto 20 with log_trace.
Qed.

Lemma log_holds_process_frame frame w :
  log_holds path w -> log_holds path (process_frame env frame w).
Proof.
  intros H. destruct frame as [e|]; [|apply log_holds_handle_no_face; exact H].
  unfold process_frame.
  repeat case_match; auto 20 with log_trace.
Qed.

Lemma log_holds_process_frames frames : forall w,
  log_holds path w -> log_holds path (process_frames env frames w).
Proof.
  induction frames as [|frame frames IH]; intros w H; [exact H|].
  cbn [process_frames]. apply IH. apply log_holds_process_frame. exact H.
Qed.

End LogContent.

(** X16. Whatever frames a new detector with a writable log path processes,
    starting without the file: as long as no event was emitted the file
    is not created; afterwards reading it back gives the header and then
    one two-field row per emitted event, in the order of emission, with
    the event name in the second field. *)
Theorem log_file_matches_events env guard headless_ fullscreen_ path fs frames :
  path <> EmptyString ->
  writable env path = true ->
  fs !! path = None ->
  let w := process_frames env frames
             (__init__ env guard headless_ fullscreen_ (Some path) fs) in
  match logged (calls w) with
  | [] => disk w !! path = None
  | events =>
      exists (text : string) (rows : list (list string)),
        disk w !! path = Some text
        /\ csv_reader text = header :: rows
        /\ map (fun row => nth 1 row EmptyString) rows = events
        /\ Forall (fun row => length row = 2%nat) rows
  end.
Proof.
  intros Hne Hw Hfile. cbv zeta.
  destruct (log_holds_process_frames env path Hne Hw frames
              (__init__ env guard headless_ fullscreen_ (Some path) fs))
    as (_ & rows & Hevents & Hrows & Hdisk).
  { split; [reflexivity|]. exists []. repeat split; [constructor | exact Hfile]. }
  destruct (logged (calls _)) as [|event events] eqn:Hlogged.
  - destruct rows; [exact Hdisk | discriminate Hevents].
  - exists (writerows (header :: rows)), rows.
    split; [destruct rows; [discriminate Hevents | exact Hdisk]|].
    split; [apply csv_round_trip|]. split; [exact Hevents | exact Hrows].
Qed.

(** The guard run of one no-face frame past the timeout: three events, three
    rows after the header. *)
Lemma log_file_matches_events_witness :
  match logged (calls w_alerting) with
  | [] => disk w_alerting !! "guard.csv"%string = None
  | events =>
      exists (text : string) (rows : list (list string)),
        disk w_alerting !! "guard.csv"%string = Some text
        /\ csv_reader text = header :: rows
        /\ map (fun row => nth 1 row EmptyString) rows = events
        /\ Forall (fun row => length row = 2%nat) rows
  end.
Proof.
  assert (Hne : "guard.csv"%string <> EmptyString) by discriminate.
  exact (log_file_matches_events env_jump true true false
           "guard.csv"%string ∅ [None] Hne eq_refl eq_refl).
Defined.


(** ** Alert banners on the frame *)

Section Banners.

Variable env : Env.

Lemma contains_no_capital_A s :
  no_capital_A s = true -> contains "ALERT" s = false.
Proof.
  induction s as [|c s IH]; [reflexivity|].
  cbn [no_capital_A]. intros H. apply andb_prop in H. destruct H as [Hc Hs].
  cbn [contains String.prefix]. rewrite (IH Hs), orb_false_r.
  destruct (ascii_dec "A" c) as [Heq|Hne]; [|reflexivity].
  subst c. discriminate Hc.
Qed.

Lemma contains_ear_label s :
  contains "ALERT" ("EAR (Eye Aspect Ratio): " ++ s)%string = contains "ALERT" s.
Proof. reflexivity. Qed.

Lemma contains_score_label s :
  contains "ALERT" ("Fatigue score: " ++ s)%string = contains "ALERT" s.
Proof. reflexivity. Qed.

Lemma banner_ok_plain l : alert_style l = false -> banner_ok l.
Proof.
  intros H. split; [congruence|].
  intros [Hl | Hl]; rewrite Hl in H; discriminate H.
Qed.

Lemma banner_ok_fatigue : banner_ok fatigue_label.
Proof. split; [left; reflexivity | reflexivity]. Qed.

Lemma banner_ok_no_face : banner_ok no_face_label.
Proof. split; [right; reflexivity | reflexivity]. Qed.

(** The labels of a face frame: the banner when the fatigue alert is raised,
    then the two read-outs. *)
Lemma process_frame_face_screen e w :
  let w' := process_frame env (Some e) w in
  screen w'
  = screen w
    ++ (if Qltb e (EAR_THRESH (self w))
           && fatigue_alert_condition (scorer_closed (reading env w) (self w))
        then [fatigue_label] else [])
    ++ [ {| label_text := ("EAR (Eye Aspect Ratio): " ++ format_fixed env 2 e)%string;
            alert_style := contains "ALERT" (format_fixed env 2 e) |};
         {| label_text := ("Fatigue score: "
                           ++ format_fixed env 0 (fatigue_score (self w')))%string;
            alert_style := contains "ALERT"
                             (format_fixed env 0 (fatigue_score (self w'))) |} ].
Proof.
  cbv zeta. unfold process_frame.
  cbn [screen self put_text_with_background add_label].
  rewrite contains_ear_label, contains_score_label.
  cbn [self upd tick EAR_THRESH set_last_face_time].
  destruct (Qltb e (EAR_THRESH (self w))); cbn [andb].
  - cbn [self upd tick counter fatigue_score fatigue_increase_per_frame
         set_counter set_fatigue_score set_last_face_time].
    fold (scorer_closed (reading env w) (self w)).
    destruct (fatigue_alert_condition _).
    + rewrite log_event_screen, handle_audio_alert_screen.
      cbn [screen put_text_with_background add_label upd tick].
      rewrite <- !app_assoc. reflexivity.
    + cbn [screen upd tick app]. rewrite <- !app_assoc. reflexivity.
  - rewrite handle_audio_alert_screen.
    cbn [screen upd tick app]. rewrite <- !app_assoc. reflexivity.
Qed.

Ltac banners_ok :=
  repeat (apply List.Forall_cons;
          [first [apply banner_ok_fatigue | apply banner_ok_no_face
                 | apply banner_ok_plain; reflexivity]|]);
  apply List.Forall_nil.

(** One frame: the labels it draws, and the alert events it emits. *)
Lemma frame_banners frame w :
  plain_numbers env ->
  let w' := process_frame env frame w in
  exists ls : list Label,
    screen w' = screen w ++ ls
    /\ Forall banner_ok ls
    /\ (length (List.filter alert_style ls) + count_raised (calls w)
        = count_raised (calls w'))%nat.
Proof.
  intros Hplain. cbv zeta. unfold count_raised, count_event.
  destruct frame as [e|].
  - rewrite process_frame_face_screen. eexists. split; [reflexivity|].
    rewrite !(contains_no_capital_A _ (Hplain _ _)).
    destruct (Qltb e (EAR_THRESH (self w))) eqn:He; cbn [andb].
    + rewrite (process_frame_closed_calls env e w He).
      destruct (fatigue_alert_condition _); cbn [app]; split.
      * banners_ok.
      * rewrite !List.filter_app, !length_app.
        destruct (beep_due _ _); cbn; lia.
      * banners_ok.
      * rewrite app_nil_r. reflexivity.
    + rewrite (process_frame_open_calls env e w He). cbn [app]. split.
      * banners_ok.
      * rewrite !List.filter_app, !length_app.
        destruct (alert_active (self w)); cbn; lia.
  - cbn [process_frame]. destruct (guard_mode (self w)) eqn:Hg.
    + rewrite (handle_no_face_screen env w Hg). eexists. split; [reflexivity|].
      destruct (handle_no_face_cases env w Hg) as [Hq | [[Ha Hn] | [Ha Hn]]];
        cbv zeta in *.
      * rewrite Hq, (handle_no_face_quiet_calls env w Hg Hq).
        split; [banners_ok|].
        rewrite !List.filter_app, !length_app.
        destruct (alert_active (self w)), (guard_alert_active (self w));
          cbn; lia.
      * rewrite Ha, (handle_no_face_alert_calls env w Hg Ha Hn).
        split; [banners_ok|].
        rewrite !List.filter_app, !length_app.
        destruct (beep_due _ _); cbn; lia.
      * destruct (handle_no_face_escalated env w Hg Ha Hn) as [Hc _].
        rewrite Ha, Hc.
        split; [banners_ok|].
        rewrite !List.filter_app, !length_app.
        destruct (beep_due _ _), (guard_escalated (self w)),
          (escalation_due _ _); cbn; lia.
    + rewrite (handle_no_face_off env w Hg). exists [].
      split; [rewrite app_nil_r; reflexivity|]. split; [constructor|reflexivity].
Qed.

End Banners.

(** X17. Whatever frames are processed, provided numbers format without a capital
    A: the labels drawn are appended to the screen, a label has the red alert
    background exactly when it is the fatigue banner or the no-face banner,
    and as many banners are drawn as FATIGUE_ALERT and NO_FACE_ALERT events
    are emitted. *)
Theorem banners_match_alert_events env frames : forall w,
  plain_numbers env ->
  let w' := process_frames env frames w in
  exists ls : list Label,
    screen w' = screen w ++ ls
    /\ Forall banner_ok ls
    /\ (length (List.filter alert_style ls) + count_raised (calls w)
        = count_raised (calls w'))%nat.
Proof.
  induction frames as [|frame frames IH]; intros w Hplain; cbv zeta.
  - exists []. split; [rewrite app_nil_r; reflexivity|].
    split; [constructor | reflexivity].
  - cbn [process_frames].
    destruct (frame_banners env frame w Hplain) as (ls & Hscreen & Hok & Hcount).
    destruct (IH (process_frame env frame w) Hplain)
      as (ls' & Hscreen' & Hok' & Hcount').
    cbv zeta in *. exists (ls ++ ls').
    split; [rewrite Hscreen', Hscreen, app_assoc; reflexivity|].
    split; [apply Forall_app; split; assumption|].
    rewrite List.filter_app, length_app. lia.
Qed.

(** A closed-eye frame of the idle detector, then thirty more: the banner
    appears with the alert. *)
Lemma banners_match_alert_events_witness :
  exists ls : list Label,
    screen (process_frames env_epoch (repeat (Some (1 # 5)%Q) 31) w_idle)
    = screen w_idle ++ ls
    /\ Forall banner_ok ls.
Proof.
  assert (Hplain : plain_numbers env_epoch) by (intros n x; reflexivity).
  destruct (banners_match_alert_events env_epoch
              (repeat (Some (1 # 5)%Q) 31) w_idle Hplain)
    as (ls & Hscreen & Hok & _).
  exists ls. split; [exact Hscreen | exact Hok].
Defined.
